(** * The in-memory store of lib/Store/make-in-memory-store.js

    A shallow embedding of the event handlers that [bind] registers, of the
    collections they mutate and of the sort key [waChatKey], followed by the
    properties of the reconciliation rules.

    Conventions of the embedding.
    - A JavaScript object used as an open-ended bag of fields is a
      [gmap string val]; [Object.assign] and object spread are the
      right-biased union [assign].  A read of a field that is not there
      yields [VUndef], as in JavaScript.
    - Numbers are the integers the events carry (counters, timestamps): [Z].
    - The handlers run one at a time and to completion.  The [async]
      handler of [contacts.update] is embedded as one atomic step: its
      [await]s are evaluated in place.
    - Logging is not part of the state. *)

From Stdlib Require Import ZArith String Ascii List Lia Bool.
From stdpp Require Import base option list gmap strings fin_maps.

(** ** JavaScript values and objects *)

Inductive val : Type :=
  | VUndef
  | VNull
  | VBool (b : bool)
  | VNum (n : Z)
  | VStr (s : string).

#[global] Instance val_eq_dec : EqDecision val.
Proof. solve_decision. Defined.

Abbreviation obj := (gmap string val).

(** [o.f]: reading a property that is absent gives [undefined]. *)
Definition prop (f : string) (o : obj) : val := default VUndef (o !! f).

(** [Object.assign(target, source)], also [{...target, ...source}]: every own
    field of [source] is written over [target]. *)
Definition assign (target source : obj) : obj := source ∪ target.

(** ** Number.prototype.toString(16) and String.prototype.padStart *)

Definition hexDigit (d : Z) : ascii :=
  match d with
  | 0%Z => "0" | 1%Z => "1" | 2%Z => "2" | 3%Z => "3"
  | 4%Z => "4" | 5%Z => "5" | 6%Z => "6" | 7%Z => "7"
  | 8%Z => "8" | 9%Z => "9" | 10%Z => "a" | 11%Z => "b"
  | 12%Z => "c" | 13%Z => "d" | 14%Z => "e" | _ => "f"
  end%char.

(** Digits of a non-negative [n], most significant first, in front of [acc]. *)
Fixpoint hexDigits (fuel : nat) (n : Z) (acc : string) : string :=
  match fuel with
  | O => acc
  | S fuel' =>
      let acc' := String (hexDigit (n mod 16)) acc in
      if (n / 16 =? 0)%Z then acc' else hexDigits fuel' (n / 16) acc'
  end.

(** [n.toString(16)] for an integer [n]; a number has no more hexadecimal
    digits than binary ones, which bounds the fuel. *)
Definition toString16 (n : Z) : string :=
  if (n <? 0)%Z
  then String "-"%char (hexDigits (S (Z.to_nat (Z.log2 (- n)))) (- n) "")
  else hexDigits (S (Z.to_nat (Z.log2 n))) n "".

Fixpoint repeatChar (n : nat) (c : ascii) : string :=
  match n with
  | O => ""
  | S n' => String c (repeatChar n' c)
  end.

(** [s.padStart(n, c)] for a one-character filler. *)
Definition padStart (n : nat) (c : ascii) (s : string) : string :=
  repeatChar (n - String.length s) c +:+ s.

(** ** Chats and the sort key [waChatKey] *)

Module Chat.
(** Every field but [id] is optional; a chat update is a chat with only
    some fields present. *)
Record t : Type := mk {
  id : string;
  pinned : option bool;
  archived : option bool;
  conversationTimestamp : option Z;
  unreadCount : option Z;
  name : option string
}.
End Chat.

(** The pair of functions a [KeyedDB] is built from. *)
Record Comparable (T : Type) : Type := mkComparable {
  key : T → string;
  compare : string → string → comparison
}.
Arguments mkComparable {T} _ _.
Arguments key {T} _ _.
Arguments compare {T} _ _ _.

(** Truthiness of an optional flag and of an optional number. *)
Definition truthyFlag (b : option bool) : bool := default false b.
Definition truthyNum (n : option Z) : bool :=
  match n with
  | Some n => negb (n =? 0)%Z
  | None => false
  end.

(** [c.conversationTimestamp ? c.conversationTimestamp.toString(16).padStart(8, '0') : ''] *)
Definition timestampHex (c : Chat.t) : string :=
  match Chat.conversationTimestamp c with
  | Some n => if truthyNum (Some n) then padStart 8 "0" (toString16 n) else ""
  | None => ""
  end.

(** [waChatKey(pin)].  [localeCompare k1 k2] stands for
    [k1.localeCompare(k2)], the collation of the host, which depends on the
    locale: it is a parameter, and nothing is assumed of it. *)
Definition waChatKey (localeCompare : string → string → comparison) (pin : bool)
  : Comparable Chat.t :=
  {| key := λ c,
       (((if pin then (if truthyFlag (Chat.pinned c) then "1" else "0") else "")
         +:+ (if truthyFlag (Chat.archived c) then "0" else "1"))
         +:+ timestampHex c)
         +:+ Chat.id c;
     compare := λ k1 k2, localeCompare k2 k1 |}.

(** ** Messages *)

Module MessageKey.
Record t : Type := mk {
  remoteJid : string;
  fromMe : bool;
  id : option string
}.
End MessageKey.

Module WAMessage.
Record t : Type := mk {
  key : MessageKey.t;
  content : string
}.
End WAMessage.

(** [m.key.id || ''] *)
Definition waMessageID (m : WAMessage.t) : string :=
  default ""%string (MessageKey.id (WAMessage.key m)).

(** ** Labels and label associations *)

Module Label.
Record t : Type := mk {
  id : string;
  name : string;
  deleted : bool
}.
End Label.

Module LabelAssociation.
(** Modelled from the spec: [LabelAssociationType] of
    Types/LabelAssociation, the two kinds of association row. *)
Inductive type : Type := Chat | Message.

Record t : Type := mk {
  type_ : type;
  chatId : string;
  messageId : option string;
  labelId : string
}.
End LabelAssociation.

(** A string concatenated with a field that may be [undefined]. *)
Definition strOrUndefined (s : option string) : string :=
  default "undefined"%string s.

Definition waLabelAssociationKey (localeCompare : string → string → comparison)
  : Comparable LabelAssociation.t :=
  {| key := λ la,
       match LabelAssociation.type_ la with
       | LabelAssociation.Chat =>
           LabelAssociation.chatId la +:+ LabelAssociation.labelId la
       | LabelAssociation.Message =>
           (LabelAssociation.chatId la
             +:+ strOrUndefined (LabelAssociation.messageId la))
             +:+ LabelAssociation.labelId la
       end;
     compare := λ k1 k2, localeCompare k2 k1 |}.

(** ** Contacts *)

Module Contact.
(** [id] is the field the code reads as a string; every other field
    ([name], [notify], [imgUrl], ...) lives in [fields]. *)
Record t : Type := mk {
  id : string;
  fields : obj
}.
End Contact.

(** [{...old || {}, ...contact}] *)
Definition spreadContact (old : option Contact.t) (contact : Contact.t) : Contact.t :=
  match old with
  | Some o =>
      {| Contact.id := Contact.id contact;
         Contact.fields := assign (Contact.fields o) (Contact.fields contact) |}
  | None => contact
  end.

(** [Object.assign(target, source)] on two contact objects. *)
Definition assignContact (target source : Contact.t) : Contact.t :=
  {| Contact.id := Contact.id source;
     Contact.fields := assign (Contact.fields target) (Contact.fields source) |}.

(** ** A JavaScript object whose key order is observed

    [contacts] is enumerated with [Object.keys]: the keys come in insertion
    order (the ids are not array indices).  Such an object is a list of
    bindings with distinct keys, oldest first. *)

Module JsObject.
Section ops.
Context {V : Type}.

Fixpoint get (k : string) (o : list (string * V)) : option V :=
  match o with
  | [] => None
  | (k', v) :: o' => if decide (k' = k) then Some v else get k o'
  end.

(** [o[k] = v]: in place for a known key, at the end for a new one. *)
Fixpoint set (k : string) (v : V) (o : list (string * V)) : list (string * V) :=
  match o with
  | [] => [(k, v)]
  | (k', v') :: o' =>
      if decide (k' = k) then (k, v) :: o' else (k', v') :: set k v o'
  end.

(** [delete o[k]] *)
Fixpoint delete (k : string) (o : list (string * V)) : list (string * V) :=
  match o with
  | [] => []
  | (k', v) :: o' =>
      if decide (k' = k) then delete k o' else (k', v) :: delete k o'
  end.

(** [Object.keys(o)] *)
Definition keys (o : list (string * V)) : list string := o.*1.
End ops.
End JsObject.

(** ** KeyedDB

    The class [KeyedDB] comes from the package @adiwajshing/keyed-db and is
    not part of this file.  It is the OrderedKeyedCollection of the
    specification: the collection is the array of its items, ordered by the
    comparator on the items' keys, and [idGetter] gives the unique id of an
    item. *)

Module KeyedDB.
Section ops.
Context {T : Type} (cmp : Comparable T) (idGetter : T → string).

Definition hasId (id : string) (v : T) : bool := bool_decide (idGetter v = id).

(** Modelled from the spec: [KeyedDB.get] of @adiwajshing/keyed-db, the
    item of the id, if any. *)
Definition get (id : string) (db : list T) : option T := List.find (hasId id) db.

(** Modelled from the spec: the positioning of an item by its current sort
    key in [KeyedDB] of @adiwajshing/keyed-db.  The item goes after every
    item the comparator puts before it. *)
Fixpoint insertSorted (v : T) (db : list T) : list T :=
  match db with
  | [] => [v]
  | w :: db' =>
      match compare cmp (key cmp v) (key cmp w) with
      | Gt => w :: insertSorted v db'
      | _ => v :: w :: db'
      end
  end.

(** Modelled from the spec: [KeyedDB.deleteById] of @adiwajshing/keyed-db. *)
Definition deleteById (id : string) (db : list T) : list T :=
  List.filter (λ v, negb (hasId id v)) db.

(** Modelled from the spec: [KeyedDB.delete] of @adiwajshing/keyed-db, the
    removal of the item that has the id of [v]. *)
Definition delete (v : T) (db : list T) : list T := deleteById (idGetter v) db.

(** Modelled from the spec: one item of [KeyedDB.insertIfAbsent] of
    @adiwajshing/keyed-db; an item whose id is known is skipped.  [acc] is
    the list of the items inserted so far and the collection. *)
Definition insertOneIfAbsent (acc : list T * list T) (v : T) : list T * list T :=
  match get (idGetter v) acc.2 with
  | Some _ => acc
  | None => (acc.1 ++ [v], insertSorted v acc.2)
  end.

(** Modelled from the spec: [KeyedDB.insertIfAbsent] of
    @adiwajshing/keyed-db; returns the items actually inserted and the new
    collection. *)
Definition insertIfAbsent (values : list T) (db : list T) : list T * list T :=
  foldl insertOneIfAbsent ([], db) values.

(** Modelled from the spec: [KeyedDB.upsert] of @adiwajshing/keyed-db:
    insert or fully replace, positioned by the current sort key. *)
Definition upsert (values : list T) (db : list T) : list T :=
  foldl (λ db v, insertSorted v (deleteById (idGetter v) db)) db values.

(** Modelled from the spec: [KeyedDB.update] of @adiwajshing/keyed-db:
    the mutator is applied to the item of the id, which is positioned
    again; [None] when the id is absent. *)
Definition update (id : string) (mutator : T → T) (db : list T) : option (list T) :=
  match get id db with
  | Some v => Some (insertSorted (mutator v) (deleteById id db))
  | None => None
  end.

(** Modelled from the spec: [KeyedDB.clear] of @adiwajshing/keyed-db. *)
Definition clear (db : list T) : list T := [].

(** Modelled from the spec: the count of [KeyedDB] of
    @adiwajshing/keyed-db. *)
Definition count (db : list T) : nat := length db.
End ops.
End KeyedDB.

(** ** The ordered dictionary of one chat's messages

    [makeOrderedDictionary] of Store/make-ordered-dictionary is not part of
    this file.  It is the OrderedAppendCollection of the specification: the
    list of the messages of one chat, in order. *)

(** The second argument of [upsert]: 'append' or 'prepend'. *)
Inductive Direction : Type := Append | Prepend.

Module OrderedDictionary.
Section ops.
Context {T : Type} (idGetter : T → string).

(** Modelled from the spec: [get] of the dictionary that
    [makeOrderedDictionary] of Store/make-ordered-dictionary returns. *)
Definition get (id : string) (d : list T) : option T :=
  List.find (λ i, bool_decide (idGetter i = id)) d.

(** Modelled from the spec: the replacement in place that [upsert] of
    Store/make-ordered-dictionary does for a known id: the content changes,
    the position does not. *)
Definition replace (item : T) (d : list T) : list T :=
  List.map (λ i, if bool_decide (idGetter i = idGetter item) then item else i) d.

(** Modelled from the spec: [upsert] of the dictionary that
    [makeOrderedDictionary] of Store/make-ordered-dictionary returns: an
    unknown id is inserted at the front or at the back, a known id has its
    content replaced in place. *)
Definition upsert (item : T) (mode : Direction) (d : list T) : list T :=
  match get (idGetter item) d with
  | Some _ => replace item d
  | None =>
      match mode with
      | Append => d ++ [item]
      | Prepend => item :: d
      end
  end.
End ops.
End OrderedDictionary.

(** [makeOrderedDictionary(waMessageID)]: the empty dictionary; its id
    getter [waMessageID] is given to the operations. *)
Definition makeMessagesDictionary : list WAMessage.t := [].

(** ** The repository of labels

    The class [ObjectRepository] of Store/object-repository is not part of
    this file.  It is the EntityRepository of the specification. *)

Module ObjectRepository.
Section ops.
Context {T : Type}.

(** Modelled from the spec: [ObjectRepository.count] of
    Store/object-repository, the number of items stored. *)
Definition count (r : gmap string T) : nat := size r.

(** Modelled from the spec: [ObjectRepository.upsertById] of
    Store/object-repository: rejected ([None]) when 20 items are stored and
    the id is not one of them, otherwise the item is inserted or replaces
    the one of its id. *)
Definition upsertById (id : string) (item : T) (r : gmap string T)
  : option (gmap string T) :=
  if bool_decide (size r = 20 ∧ r !! id = None) then None
  else Some (<[id := item]> r).

(** Modelled from the spec: [ObjectRepository.deleteById] of
    Store/object-repository: removes the item of the id if there is one. *)
Definition deleteById (id : string) (r : gmap string T) : gmap string T :=
  base.delete id r.
End ops.
End ObjectRepository.

(** ** The store *)

Module DecodedJid.
(** Modelled from the spec: the result of [jidDecode] of WABinary, an object
    of which the store reads the field [user], the user-identifier portion
    of the id. *)
Record t : Type := mk {
  user : string
}.
End DecodedJid.

(** The session the store may consume: [profilePictureUrl(id)] gives the
    picture's URL or nothing. *)
Record Socket : Type := mkSocket {
  profilePictureUrl : string → option string
}.

Module Config.
Record t : Type := mk {
  socket : option Socket;
  chatKey : option (Comparable Chat.t);
  labelAssociationKey : option (Comparable LabelAssociation.t)
}.
End Config.

Record Store : Type := mkStore {
  chats : list Chat.t;
  messages : gmap string (list WAMessage.t);
  contacts : list (string * Contact.t);
  groupMetadata : gmap string obj;
  presences : gmap string (gmap string obj);
  state : obj;
  labels : gmap string Label.t;
  labelAssociations : list LabelAssociation.t
}.

(** The collections as [module.exports] creates them. *)
Definition initialStore : Store :=
  {| chats := [];
     messages := ∅;
     contacts := [];
     groupMetadata := ∅;
     presences := ∅;
     state := {[ "connection"%string := VStr "close" ]};
     labels := ∅;
     labelAssociations := [] |}.

(** Assignment to one collection of the store. *)
Definition setChats (v : list Chat.t) (s : Store) : Store :=
  {| chats := v; messages := messages s; contacts := contacts s;
     groupMetadata := groupMetadata s; presences := presences s;
     state := state s; labels := labels s;
     labelAssociations := labelAssociations s |}.

Definition setMessages (v : gmap string (list WAMessage.t)) (s : Store) : Store :=
  {| chats := chats s; messages := v; contacts := contacts s;
     groupMetadata := groupMetadata s; presences := presences s;
     state := state s; labels := labels s;
     labelAssociations := labelAssociations s |}.

Definition setContacts (v : list (string * Contact.t)) (s : Store) : Store :=
  {| chats := chats s; messages := messages s; contacts := v;
     groupMetadata := groupMetadata s; presences := presences s;
     state := state s; labels := labels s;
     labelAssociations := labelAssociations s |}.

Definition setPresences (v : gmap string (gmap string obj)) (s : Store) : Store :=
  {| chats := chats s; messages := messages s; contacts := contacts s;
     groupMetadata := groupMetadata s; presences := v;
     state := state s; labels := labels s;
     labelAssociations := labelAssociations s |}.

Definition setState (v : obj) (s : Store) : Store :=
  {| chats := chats s; messages := messages s; contacts := contacts s;
     groupMetadata := groupMetadata s; presences := presences s;
     state := v; labels := labels s;
     labelAssociations := labelAssociations s |}.

Definition setLabels (v : gmap string Label.t) (s : Store) : Store :=
  {| chats := chats s; messages := messages s; contacts := contacts s;
     groupMetadata := groupMetadata s; presences := presences s;
     state := state s; labels := v;
     labelAssociations := labelAssociations s |}.

Definition setLabelAssociations (v : list LabelAssociation.t) (s : Store) : Store :=
  {| chats := chats s; messages := messages s; contacts := contacts s;
     groupMetadata := groupMetadata s; presences := presences s;
     state := state s; labels := labels s;
     labelAssociations := v |}.

Inductive Event : Type :=
  | ConnectionUpdate (update : option obj)
  | MessagingHistorySet (newChats : list Chat.t) (newContacts : list Contact.t)
      (newMessages : list WAMessage.t) (isLatest : bool)
  | ContactsUpsert (newContacts : list Contact.t)
  | ContactsUpdate (updates : list Contact.t)
  | ChatsUpsert (newChats : list Chat.t)
  | ChatsUpdate (updates : list Chat.t)
  | LabelsEdit (label : Label.t)
  | LabelsAssociation (type : string) (association : LabelAssociation.t)
  | PresenceUpdate (id : string) (update : gmap string obj)
  | ChatsDelete (deletions : list string)
  | MessagesUpsert (newMessages : list WAMessage.t) (type : string).

(** How the body of a loop of a handler ends: it falls through to the next
    iteration, it leaves the handler with [return], or it throws. *)
Inductive Completion : Type := Normal | Return | Throw.

(** A value used as a property key or concatenated to a string: an object
    gives "[object Object]", [undefined] gives "undefined". *)
Definition objectToString {A : Type} (o : option A) : string :=
  match o with
  | Some _ => "[object Object]"
  | None => "undefined"
  end.

(** A field of an update, when it is there, replaces the chat's. *)
Definition assignField {A : Type} (target source : option A) : option A :=
  match source with
  | Some x => Some x
  | None => target
  end.

(** [Object.assign(chat, update)] *)
Definition assignChat (chat update : Chat.t) : Chat.t :=
  {| Chat.id := Chat.id update;
     Chat.pinned := assignField (Chat.pinned chat) (Chat.pinned update);
     Chat.archived := assignField (Chat.archived chat) (Chat.archived update);
     Chat.conversationTimestamp :=
       assignField (Chat.conversationTimestamp chat) (Chat.conversationTimestamp update);
     Chat.unreadCount := assignField (Chat.unreadCount chat) (Chat.unreadCount update);
     Chat.name := assignField (Chat.name chat) (Chat.name update) |}.

Definition setUnreadCount (n : Z) (c : Chat.t) : Chat.t :=
  {| Chat.id := Chat.id c;
     Chat.pinned := Chat.pinned c;
     Chat.archived := Chat.archived c;
     Chat.conversationTimestamp := Chat.conversationTimestamp c;
     Chat.unreadCount := Some n;
     Chat.name := Chat.name c |}.

(** [contact.imgUrl = v] and [delete contact.imgUrl] *)
Definition setImgUrl (v : val) (c : Contact.t) : Contact.t :=
  {| Contact.id := Contact.id c;
     Contact.fields := <[ "imgUrl"%string := v ]> (Contact.fields c) |}.

Definition deleteImgUrl (c : Contact.t) : Contact.t :=
  {| Contact.id := Contact.id c;
     Contact.fields := delete "imgUrl"%string (Contact.fields c) |}.

Definition urlOrUndefined (u : option string) : val :=
  match u with
  | Some s => VStr s
  | None => VUndef
  end.

Section Store.

(** [String.prototype.localeCompare] belongs to the host, [jidDecode] of
    WABinary and [md5] of Utils are not part of this file: the handlers are
    stated for any collation, any decoder and any digest.  [md5Base64 s]
    stands for the base64 text of the digest of the UTF-8 bytes of [s]. *)
Variable localeCompare : string → string → comparison.
Variable jidDecode : string → option DecodedJid.t.
Variable md5Base64 : string → string.
Variable config : Config.t.

Definition socket : option Socket := Config.socket config.

Definition chatKey : Comparable Chat.t :=
  default (waChatKey localeCompare true) (Config.chatKey config).

Definition labelAssociationKey : Comparable LabelAssociation.t :=
  default (waLabelAssociationKey localeCompare) (Config.labelAssociationKey config).

(** [assertMessageList(jid)]: the list of the chat, created when absent,
    and the map that holds it. *)
Definition assertMessageList (jid : string) (msgs : gmap string (list WAMessage.t))
  : list WAMessage.t * gmap string (list WAMessage.t) :=
  match msgs !! jid with
  | Some l => (l, msgs)
  | None => (makeMessagesDictionary, <[jid := makeMessagesDictionary]> msgs)
  end.

(** [assertMessageList(jid).upsert(msg, mode)]: the list is changed in
    place, inside the map. *)
Definition upsertMessage (jid : string) (msg : WAMessage.t) (mode : Direction)
    (msgs : gmap string (list WAMessage.t)) : gmap string (list WAMessage.t) :=
  let '(l, msgs') := assertMessageList jid msgs in
  <[jid := OrderedDictionary.upsert waMessageID msg mode l]> msgs'.

(** The body of the loop over [newMessages] of messaging-history.set. *)
Definition prependMessage (msgs : gmap string (list WAMessage.t)) (msg : WAMessage.t)
  : gmap string (list WAMessage.t) :=
  upsertMessage (MessageKey.remoteJid (WAMessage.key msg)) msg Prepend msgs.

(** [contactsUpsert]: the contacts after the merge and the set
    [oldContacts] of the ids that were known and are not in the batch. *)
Definition contactsUpsertOne (acc : list (string * Contact.t) * list string)
    (contact : Contact.t) : list (string * Contact.t) * list string :=
  (JsObject.set (Contact.id contact)
     (spreadContact (JsObject.get (Contact.id contact) acc.1) contact) acc.1,
   List.filter (λ k, negb (bool_decide (k = Contact.id contact))) acc.2).

Definition contactsUpsert (newContacts : list Contact.t)
    (cs : list (string * Contact.t)) : list (string * Contact.t) * list string :=
  foldl contactsUpsertOne (cs, JsObject.keys cs) newContacts.

(** [labelsUpsert], which no handler calls. *)
Definition labelsUpsert (newLabels : list Label.t) (r : gmap string Label.t)
  : gmap string Label.t :=
  foldl (λ r label, default r (ObjectRepository.upsertById (Label.id label) label r))
        r newLabels.

(** *** connection.update *)
Definition onConnectionUpdate (update : option obj) (s : Store) : Store :=
  match update with
  | None => s
  | Some u => setState (assign (state s) u) s
  end.

(** *** messaging-history.set *)
Definition onMessagingHistorySet (newChats : list Chat.t) (newContacts : list Contact.t)
    (newMessages : list WAMessage.t) (isLatest : bool) (s : Store) : Store :=
  let s :=
    if isLatest
    then setMessages
           (foldr (λ id m, delete id m) (messages s) (elements (dom (messages s))))
           (setChats (KeyedDB.clear (chats s)) s)
    else s in
  let s := setChats (KeyedDB.insertIfAbsent chatKey Chat.id newChats (chats s)).2 s in
  let upserted := contactsUpsert newContacts (contacts s) in
  let oldContacts := upserted.2 in
  let s := setContacts upserted.1 s in
  let s :=
    if isLatest
    then setContacts (foldl (λ cs jid, JsObject.delete jid cs) (contacts s) oldContacts) s
    else s in
  setMessages (foldl prependMessage (messages s) newMessages) s.

(** *** contacts.upsert *)
Definition onContactsUpsert (newContacts : list Contact.t) (s : Store) : Store :=
  setContacts (contactsUpsert newContacts (contacts s)).1 s.

(** *** contacts.update *)

(** The pairs of a contact id and its fingerprint; [None] when the
    destructuring of [jidDecode(contactId)] throws because the id does not
    decode. *)
Definition contactHashes (cs : list (string * Contact.t)) : option (list (string * string)) :=
  mapM (λ contactId,
          match jidDecode contactId with
          | Some d =>
              Some (contactId,
                    String.substring 0 3
                      (md5Base64 (DecodedJid.user d +:+ "WA_ADD_NOTIF")))
          | None => None
          end)
       (JsObject.keys cs).

(** The object [contact] and the key it is stored under: [None] when the
    lookup throws, [Some None] when [contact] is [undefined]. *)
Definition findContact (update : Contact.t) (cs : list (string * Contact.t))
  : option (option (string * Contact.t)) :=
  match JsObject.get (Contact.id update) cs with
  | Some contact => Some (Some (Contact.id update, contact))
  | None =>
      match contactHashes cs with
      | None => None
      | Some hashes =>
          let k :=
            default ""%string
              (fst <$> List.find (λ '(_, b), bool_decide (b = Contact.id update)) hashes) in
          Some (pair k <$> JsObject.get k cs)
      end
  end.

(** The sentinel step on the object [contact]. *)
Definition applyImgUrl (update contact : Contact.t) : Contact.t :=
  if bool_decide (prop "imgUrl" (Contact.fields update) = VStr "changed")
  then setImgUrl
         (match socket with
          | Some sock => urlOrUndefined (profilePictureUrl sock (Contact.id contact))
          | None => VUndef
          end)
         contact
  else if bool_decide (prop "imgUrl" (Contact.fields update) = VStr "removed")
  then deleteImgUrl contact
  else contact.

(** One iteration of the loop.  [contact] is the object stored under the
    key [k]: the sentinel step changes it in place, and the last statement
    assigns it to [contacts[contact.id]]. *)
Definition contactsUpdateOne (update : Contact.t) (cs : list (string * Contact.t))
  : Completion * list (string * Contact.t) :=
  match findContact update cs with
  | None => (Throw, cs)
  | Some None => (Return, cs)
  | Some (Some (k, contact)) =>
      let contact := applyImgUrl update contact in
      let cs := JsObject.set k contact cs in
      match JsObject.get (Contact.id contact) cs with
      | None => (Throw, cs)
      | Some target =>
          (Normal, JsObject.set (Contact.id contact) (assignContact target contact) cs)
      end
  end.

Fixpoint contactsUpdateLoop (updates : list Contact.t) (cs : list (string * Contact.t))
  : Completion * list (string * Contact.t) :=
  match updates with
  | [] => (Normal, cs)
  | update :: rest =>
      match contactsUpdateOne update cs with
      | (Normal, cs') => contactsUpdateLoop rest cs'
      | stopped => stopped
      end
  end.

Definition onContactsUpdate (updates : list Contact.t) (s : Store) : Store :=
  setContacts (contactsUpdateLoop updates (contacts s)).2 s.

(** *** chats.upsert *)
Definition onChatsUpsert (newChats : list Chat.t) (s : Store) : Store :=
  setChats (KeyedDB.upsert chatKey Chat.id newChats (chats s)) s.

(** *** chats.update *)

(** [n || 0] and the number [n] as an operand of [+] *)
Definition orZero (n : option Z) : Z := default 0%Z n.

(** [update.unreadCount > 0] *)
Definition isPositive (n : option Z) : bool :=
  match n with
  | Some n => (0 <? n)%Z
  | None => false
  end.

(** The mutator handed to [chats.update]. *)
Definition chatMutator (update chat : Chat.t) : Chat.t :=
  let update :=
    if isPositive (Chat.unreadCount update)
    then setUnreadCount
           (orZero (Chat.unreadCount chat) + orZero (Chat.unreadCount update))%Z
           update
    else update in
  assignChat chat update.

Definition chatsUpdateOne (db : list Chat.t) (update : Chat.t) : list Chat.t :=
  match KeyedDB.update chatKey Chat.id (Chat.id update) (chatMutator update) db with
  | Some db' => db'
  | None => db
  end.

Definition onChatsUpdate (updates : list Chat.t) (s : Store) : Store :=
  setChats (foldl chatsUpdateOne (chats s) updates) s.

(** *** labels.edit *)

(** What the handler does to the repository [labels]. *)
Definition labelsEdit (label : Label.t) (r : gmap string Label.t) : gmap string Label.t :=
  if Label.deleted label
  then ObjectRepository.deleteById (Label.id label) r
  else if (ObjectRepository.count r <? 20)%nat
  then default r (ObjectRepository.upsertById (Label.id label) label r)
  else r.

Definition onLabelsEdit (label : Label.t) (s : Store) : Store :=
  setLabels (labelsEdit label (labels s)) s.

(** *** labels.association *)
Definition onLabelsAssociation (type : string) (association : LabelAssociation.t)
    (s : Store) : Store :=
  if bool_decide (type = "add"%string)
  then setLabelAssociations
         (KeyedDB.upsert labelAssociationKey (key labelAssociationKey)
            [association] (labelAssociations s)) s
  else if bool_decide (type = "remove"%string)
  then setLabelAssociations
         (KeyedDB.delete (key labelAssociationKey) association (labelAssociations s)) s
  else s.

(** *** presence.update *)
Definition onPresenceUpdate (id : string) (update : gmap string obj) (s : Store) : Store :=
  setPresences
    (<[id := update ∪ default ∅ (presences s !! id)]> (presences s)) s.

(** *** chats.delete *)
Definition onChatsDelete (deletions : list string) (s : Store) : Store :=
  setChats
    (foldl (λ db item,
              match KeyedDB.get Chat.id item db with
              | Some _ => KeyedDB.deleteById Chat.id item db
              | None => db
              end)
           (chats s) deletions)
    s.

(** *** messages.upsert *)

(** The chat that the handler emits through [ev.emit('chats.upsert', ...)],
    which runs the handler of chats.upsert at once: its [id] is the decoded
    object, which the collection reads as the string [jid]. *)
Definition placeholderChat (jid remoteJid : string) : Chat.t :=
  {| Chat.id := jid; Chat.pinned := None; Chat.archived := None;
     Chat.conversationTimestamp := None; Chat.unreadCount := None;
     Chat.name := Some remoteJid |}.

(** One iteration of the loop.  [jid] is the result of [jidDecode], an
    object or [undefined]; as the key of [messages] and as the id given to
    [chats.get] it is read as a string. *)
Definition messagesUpsertOne (type : string) (s : Store) (msg : WAMessage.t) : Store :=
  let remoteJid := MessageKey.remoteJid (WAMessage.key msg) in
  let jid := objectToString (jidDecode remoteJid) in
  let s := setMessages (upsertMessage jid msg Append (messages s)) s in
  if bool_decide (type = "notify"%string)
  then match KeyedDB.get Chat.id jid (chats s) with
       | Some _ => s
       | None => onChatsUpsert [placeholderChat jid remoteJid] s
       end
  else s.

Definition onMessagesUpsert (newMessages : list WAMessage.t) (type : string)
    (s : Store) : Store :=
  if bool_decide (type = "append"%string) || bool_decide (type = "notify"%string)
  then foldl (messagesUpsertOne type) s newMessages
  else s.

(** *** The dispatch of [bind] *)
Definition apply (s : Store) (e : Event) : Store :=
  match e with
  | ConnectionUpdate update => onConnectionUpdate update s
  | MessagingHistorySet newChats newContacts newMessages isLatest =>
      onMessagingHistorySet newChats newContacts newMessages isLatest s
  | ContactsUpsert newContacts => onContactsUpsert newContacts s
  | ContactsUpdate updates => onContactsUpdate updates s
  | ChatsUpsert newChats => onChatsUpsert newChats s
  | ChatsUpdate updates => onChatsUpdate updates s
  | LabelsEdit label => onLabelsEdit label s
  | LabelsAssociation type association => onLabelsAssociation type association s
  | PresenceUpdate id update => onPresenceUpdate id update s
  | ChatsDelete deletions => onChatsDelete deletions s
  | MessagesUpsert newMessages type => onMessagesUpsert newMessages type s
  end.

(** The store after a sequence of events, applied in arrival order. *)
Definition run (s : Store) (events : list Event) : Store := foldl apply s events.

End Store.

(** ** What the store returns

    [module.exports] returns an object with the properties [bind], [chats],
    [contacts], [messages], [presences], [labels], [labelAssociations] and
    [groupMetadata] (lines 204-213).  The collections are created inside
    the function, so that a consumer reads them through these properties
    and through nothing else. *)

(** The names of the properties of the returned object, in order. *)
Definition exportedNames : list string :=
  ["bind"; "chats"; "contacts"; "messages"; "presences"; "labels";
   "labelAssociations"; "groupMetadata"]%string.

(** The collections of the returned object; [bind] is the dispatch
    [apply]. *)
Module Exports.
Record t : Type := mk {
  chats : list Chat.t;
  contacts : list (string * Contact.t);
  messages : gmap string (list WAMessage.t);
  presences : gmap string (gmap string obj);
  labels : gmap string Label.t;
  labelAssociations : list LabelAssociation.t;
  groupMetadata : gmap string obj
}.
End Exports.

(** What a consumer reads from the returned object when the store is [s]. *)
Definition exports (s : Store) : Exports.t :=
  {| Exports.chats := chats s;
     Exports.contacts := contacts s;
     Exports.messages := messages s;
     Exports.presences := presences s;
     Exports.labels := labels s;
     Exports.labelAssociations := labelAssociations s;
     Exports.groupMetadata := groupMetadata s |}.

(** ** Predicates and sample data of the statements *)

(** The number that a string of hexadecimal digits denotes, read after the
    digits that gave [acc]. *)
Definition hexDigitValue (c : ascii) : Z :=
  match c with
  | "0" => 0 | "1" => 1 | "2" => 2 | "3" => 3 | "4" => 4 | "5" => 5
  | "6" => 6 | "7" => 7 | "8" => 8 | "9" => 9 | "a" => 10 | "b" => 11
  | "c" => 12 | "d" => 13 | "e" => 14 | _ => 15
  end%char%Z.

Fixpoint parseHex (acc : Z) (s : string) : Z :=
  match s with
  | EmptyString => acc
  | String c s' => parseHex (16 * acc + hexDigitValue c) s'
  end.

(** A timestamp that [toString(16)] prints on at most eight digits. *)
Definition eightDigitTimestamp (c : Chat.t) : Prop :=
  match Chat.conversationTimestamp c with
  | Some n => (0 < n < 2 ^ 32)%Z
  | None => False
  end.

(** Two chats whose keys have timestamp fields of the same kind: both
    empty, or both of eight digits. *)
Definition sameTimestampKind (c1 c2 : Chat.t) : Prop :=
  (truthyNum (Chat.conversationTimestamp c1) = false
   ∧ truthyNum (Chat.conversationTimestamp c2) = false)
  ∨ (eightDigitTimestamp c1 ∧ eightDigitTimestamp c2).

Definition bareChat (id : string) (timestamp : option Z) : Chat.t :=
  {| Chat.id := id; Chat.pinned := None; Chat.archived := None;
     Chat.conversationTimestamp := timestamp; Chat.unreadCount := None;
     Chat.name := None |}.

(** One collation, to run the examples with: the order of the strings
    character by character.  The collation of a host is another one; the
    theorems are stated for every collation and the examples take this one
    only to have a store to evaluate. *)
Definition sampleLocaleCompare : string → string → comparison := String.compare.

(** The configuration with no session and the default keys. *)
Definition defaultConfig : Config.t :=
  {| Config.socket := None; Config.chatKey := None;
     Config.labelAssociationKey := None |}.

Definition unreadChat (id : string) (unread : option Z) : Chat.t :=
  {| Chat.id := id; Chat.pinned := None; Chat.archived := None;
     Chat.conversationTimestamp := None; Chat.unreadCount := unread;
     Chat.name := None |}.

(** Labels with the one-letter ids "A", "B", ... *)
Definition sampleLabel (n : nat) : Label.t :=
  {| Label.id := String (ascii_of_nat (65 + n)) "";
     Label.name := "label";
     Label.deleted := false |}.

Definition sampleLabels (n : nat) : list Label.t := sampleLabel <$> seq 0 n.

Definition renamedLabel : Label.t :=
  {| Label.id := "A"; Label.name := "renamed"; Label.deleted := false |}.

(** The store after twenty labels.edit events. *)
Definition fullStore : Store :=
  foldl (λ s label, onLabelsEdit label s) initialStore (sampleLabels 20).

Definition sampleMessage (remoteJid id content : string) : WAMessage.t :=
  {| WAMessage.key :=
       {| MessageKey.remoteJid := remoteJid; MessageKey.fromMe := false;
          MessageKey.id := Some id |};
     WAMessage.content := content |}.

(** A store with the chats A and B and two messages in A. *)
Definition storeAB : Store :=
  setMessages
    {[ "A@s.whatsapp.net"%string :=
         [sampleMessage "A@s.whatsapp.net" "m1" "one";
          sampleMessage "A@s.whatsapp.net" "m2" "two"] ]}
    (setChats [bareChat "B@s.whatsapp.net" None; bareChat "A@s.whatsapp.net" None]
       initialStore).

(** A stored contact with a name and a picture, and updates for it. *)
Definition storedContact : Contact.t :=
  {| Contact.id := "1234567890@s.whatsapp.net";
     Contact.fields :=
       {[ "name"%string := VStr "Old"; "imgUrl"%string := VStr "https://pps/old" ]} |}.

Definition knownContacts : list (string * Contact.t) :=
  [("1234567890@s.whatsapp.net"%string, storedContact)].

Definition renameUpdate (id : string) : Contact.t :=
  {| Contact.id := id; Contact.fields := {[ "name"%string := VStr "New" ]} |}.

Definition imgUrlUpdate (id sentinel : string) : Contact.t :=
  {| Contact.id := id; Contact.fields := {[ "imgUrl"%string := VStr sentinel ]} |}.

(** A decoder and a digest for the examples: the user is the text before
    the first "@", the digest of every text is the same. *)
Definition sampleJidDecode (jid : string) : option DecodedJid.t :=
  match String.index 0 "@" jid with
  | Some n => Some {| DecodedJid.user := String.substring 0 n jid |}
  | None => None
  end.

Definition sampleMd5Base64 (text : string) : string := "q2FtZQ==".



(** Every message of the lists comes from [source] and sits under its own
    [remoteJid]. *)
Definition messagesFrom (source : list WAMessage.t)
    (msgs : gmap string (list WAMessage.t)) : Prop :=
  ∀ jid l m, msgs !! jid = Some l → m ∈ l →
    m ∈ source ∧ MessageKey.remoteJid (WAMessage.key m) = jid.

(** The list of [jid] knows the message id [mid]. *)
Definition knowsMessage (jid mid : string) (msgs : gmap string (list WAMessage.t)) : Prop :=
  ∃ l m, msgs !! jid = Some l ∧ m ∈ l ∧ waMessageID m = mid.

(** The representation of [contacts] is sound: the keys are distinct and
    every contact sits under its own id. *)
Definition contactsWf (cs : list (string * Contact.t)) : Prop :=
  NoDup (JsObject.keys cs)
  ∧ ∀ k contact, JsObject.get k cs = Some contact → Contact.id contact = k.

(** A contact keeps what another one had: every field that was there is
    still there. *)
Definition keepsFields (old new : Contact.t) : Prop :=
  ∀ f, is_Some (Contact.fields old !! f) → is_Some (Contact.fields new !! f).

Definition namedContact (id name : string) : Contact.t :=
  {| Contact.id := id; Contact.fields := {[ "name"%string := VStr name ]} |}.

(** The collections of the store, and the ones an event of each kind may
    write to. *)
Inductive Collection : Type :=
  | Chats | Messages | Contacts | GroupMetadata | Presences | ConnectionState
  | Labels | LabelAssociations.

#[global] Instance Collection_eq_dec : EqDecision Collection.
Proof. solve_decision. Defined.

Definition mayWrite (e : Event) : list Collection :=
  match e with
  | ConnectionUpdate _ => [ConnectionState]
  | MessagingHistorySet _ _ _ _ => [Chats; Messages; Contacts]
  | ContactsUpsert _ => [Contacts]
  | ContactsUpdate _ => [Contacts]
  | ChatsUpsert _ => [Chats]
  | ChatsUpdate _ => [Chats]
  | LabelsEdit _ => [Labels]
  | LabelsAssociation _ _ => [LabelAssociations]
  | PresenceUpdate _ _ => [Presences]
  | ChatsDelete _ => [Chats]
  | MessagesUpsert _ _ => [Chats; Messages]
  end.

Definition unchanged (c : Collection) (s s' : Store) : Prop :=
  match c with
  | Chats => chats s' = chats s
  | Messages => messages s' = messages s
  | Contacts => contacts s' = contacts s
  | GroupMetadata => groupMetadata s' = groupMetadata s
  | Presences => presences s' = presences s
  | ConnectionState => state s' = state s
  | Labels => labels s' = labels s
  | LabelAssociations => labelAssociations s' = labelAssociations s
  end.

(** A string of hexadecimal digits as [toString16] prints them. *)
Fixpoint allHex (s : string) : Prop :=
  match s with
  | EmptyString => True
  | String c s' => (∃ d, (0 ≤ d < 16)%Z ∧ c = hexDigit d) ∧ allHex s'
  end.

Definition flaggedChat (id : string) (pinned archived : bool) (timestamp : Z) : Chat.t :=
  {| Chat.id := id; Chat.pinned := Some pinned; Chat.archived := Some archived;
     Chat.conversationTimestamp := Some timestamp; Chat.unreadCount := None;
     Chat.name := None |}.

(** A labels.edit that deletes the label "A", and a label not yet stored. *)
Definition deletedLabel : Label.t :=
  {| Label.id := "A"; Label.name := "label"; Label.deleted := true |}.

(** The presence data of a participant of a chat, if any. *)
Definition presenceOf (chat participant : string) (s : Store) : option obj :=
  presences s !! chat ≫= λ m, m !! participant.

Definition chatAssociation (chatId labelId : string) : LabelAssociation.t :=
  {| LabelAssociation.type_ := LabelAssociation.Chat;
     LabelAssociation.chatId := chatId;
     LabelAssociation.messageId := None;
     LabelAssociation.labelId := labelId |}.

(** No two messages of one list share a message id. *)
Definition messageIdsUnique (msgs : gmap string (list WAMessage.t)) : Prop :=
  ∀ jid l, msgs !! jid = Some l → NoDup (waMessageID <$> l).

(** The fingerprint that contacts.update computes for a stored contact id:
    the first three characters of the digest of the user part followed by
    the salt; [None] when the id does not decode. *)
Definition fingerprintOf (jidDecode : string → option DecodedJid.t)
    (md5Base64 : string → string) (contactId : string) : option string :=
  match jidDecode contactId with
  | Some d => Some (String.substring 0 3 (md5Base64 (DecodedJid.user d +:+ "WA_ADD_NOTIF")))
  | None => None
  end.

(** Contacts with an id that [sampleJidDecode] does not decode. *)
Definition undecodableContacts : list (string * Contact.t) :=
  [("status"%string, namedContact "status" "Status")].

(** The message ids of the list of a chat, in order; no list, no ids. *)
Definition messageIds (jid : string) (msgs : gmap string (list WAMessage.t)) : list string :=
  waMessageID <$> default [] (msgs !! jid).

(** The messages of a batch that have the remoteJid [jid], in the order of
    the batch. *)
Definition messagesOf (jid : string) (batch : list WAMessage.t) : list WAMessage.t :=
  filter (λ m, MessageKey.remoteJid (WAMessage.key m) = jid) batch.

(** * Properties *)

(** ** The sort key *)

Example toString16_samples :
  toString16 0 = "0"%string
  ∧ toString16 255 = "ff"%string
  ∧ toString16 1700000000 = "6553f100"%string
  ∧ toString16 (2 ^ 32) = "100000000"%string
  ∧ toString16 (-255) = "-ff"%string.
Proof. repeat split; reflexivity. Qed.

Example waChatKey_samples :
  key (waChatKey sampleLocaleCompare true)
    {| Chat.id := "a@s.whatsapp.net"; Chat.pinned := Some true; Chat.archived := None;
       Chat.conversationTimestamp := Some 26%Z; Chat.unreadCount := None;
       Chat.name := None |}
  = "110000001aa@s.whatsapp.net"%string
  ∧ key (waChatKey sampleLocaleCompare false) (bareChat "a@s.whatsapp.net" None) = "1a@s.whatsapp.net"%string
  ∧ key (waChatKey sampleLocaleCompare true) (bareChat "a@s.whatsapp.net" (Some 0%Z))
    = "01a@s.whatsapp.net"%string.
Proof. repeat split; reflexivity. Qed.

Lemma hexDigits_length (fuel k : nat) (n : Z) (acc : string) :
  (0 ≤ n < 16 ^ Z.of_nat (S k))%Z →
  String.length (hexDigits fuel n acc) ≤ S k + String.length acc.
Proof.
  revert k n acc. induction fuel as [|fuel IH]; intros k n acc Hn; simpl.
  - lia.
  - destruct (n / 16 =? 0)%Z eqn:Hq; simpl.
    + lia.
    + apply Z.eqb_neq in Hq.
      destruct k as [|k].
      * exfalso. apply Hq. apply Z.div_small. simpl in Hn. lia.
      * specialize (IH k (n / 16)%Z (String (hexDigit (n mod 16)) acc)).
        simpl String.length in IH.
        assert (0 ≤ n / 16 < 16 ^ Z.of_nat (S k))%Z as Hdiv.
        { split; [apply Z.div_pos; lia|].
          apply Z.div_lt_upper_bound; [lia|].
          replace (16 * 16 ^ Z.of_nat (S k))%Z with (16 ^ Z.of_nat (S (S k)))%Z; [lia|].
          rewrite (Nat2Z.inj_succ (S k)), Z.pow_succ_r; lia. }
        specialize (IH Hdiv). lia.
Qed.

Lemma string_length_app (s1 s2 : string) :
  String.length (s1 +:+ s2) = String.length s1 + String.length s2.
Proof. induction s1 as [|a s1 IH]; simpl; [done|]. by rewrite IH. Qed.

Lemma string_app_assoc (s1 s2 s3 : string) :
  (s1 +:+ s2) +:+ s3 = s1 +:+ (s2 +:+ s3).
Proof.
  induction s1 as [|a s1 IH]; [done|].
  change (String a ((s1 +:+ s2) +:+ s3) = String a (s1 +:+ (s2 +:+ s3))).
  by f_equal.
Qed.

Lemma hexDigitValue_hexDigit (d : Z) : (0 ≤ d < 16)%Z → hexDigitValue (hexDigit d) = d.
Proof.
  intros Hd.
  assert (d = 0 ∨ d = 1 ∨ d = 2 ∨ d = 3 ∨ d = 4 ∨ d = 5 ∨ d = 6 ∨ d = 7 ∨ d = 8
          ∨ d = 9 ∨ d = 10 ∨ d = 11 ∨ d = 12 ∨ d = 13 ∨ d = 14 ∨ d = 15)%Z
    as Hcases by lia.
  repeat (destruct Hcases as [->|Hcases]; [reflexivity|]). by subst.
Qed.

Lemma parseHex_app (acc : Z) (s1 s2 : string) :
  parseHex acc (s1 +:+ s2) = parseHex (parseHex acc s1) s2.
Proof. revert acc. induction s1 as [|c s1 IH]; intros acc; cbn; [done|apply IH]. Qed.

(** With enough fuel [hexDigits] puts in front of [acc] the digits of [n]. *)
Lemma hexDigits_digits (fuel : nat) (n : Z) (acc : string) :
  (0 ≤ n < 16 ^ Z.of_nat fuel)%Z →
  ∃ ds, hexDigits fuel n acc = ds +:+ acc
        ∧ ∀ v, parseHex v ds = (v * 16 ^ Z.of_nat (String.length ds) + n)%Z.
Proof.
  revert n acc. induction fuel as [|fuel IH]; intros n acc Hn.
  - exists ""%string. split; [done|]. intros v. cbn in *. lia.
  - cbn [hexDigits]. destruct (n / 16 =? 0)%Z eqn:Hq.
    + apply Z.eqb_eq in Hq. exists (String (hexDigit (n mod 16)) "").
      split; [done|]. intros v. cbn.
      rewrite hexDigitValue_hexDigit by (apply Z.mod_pos_bound; lia).
      rewrite (Z.div_mod n 16) at 2 by lia. lia.
    + destruct (IH (n / 16)%Z (String (hexDigit (n mod 16)) acc)) as (ds & Hds & Hval).
      { split; [apply Z.div_pos; lia|]. apply Z.div_lt_upper_bound; [lia|].
        rewrite Nat2Z.inj_succ, Z.pow_succ_r in Hn; lia. }
      exists (ds +:+ String (hexDigit (n mod 16)) "")%string. split.
      * rewrite Hds. by rewrite string_app_assoc.
      * intros v. rewrite parseHex_app, Hval. cbn [parseHex].
        rewrite hexDigitValue_hexDigit by (apply Z.mod_pos_bound; lia).
        rewrite string_length_app. cbn [String.length].
        rewrite Nat.add_1_r, Nat2Z.inj_succ, Z.pow_succ_r by lia.
        rewrite (Z.div_mod n 16) at 3 by lia. lia.
Qed.

(** [toString16] prints a non-negative number with its own digits. *)
Lemma toString16_parseHex (n : Z) : (0 ≤ n)%Z → parseHex 0 (toString16 n) = n.
Proof.
  intros Hn. unfold toString16.
  destruct (n <? 0)%Z eqn:Hneg; [apply Z.ltb_lt in Hneg; lia|].
  destruct (hexDigits_digits (S (Z.to_nat (Z.log2 n))) n "") as (ds & Hds & Hval).
  - split; [done|].
    destruct (decide (n = 0%Z)) as [->|Hpos]; [by cbn|].
    pose proof (Z.log2_nonneg n) as Hlog.
    rewrite Nat2Z.inj_succ, Z2Nat.id by done.
    apply Z.lt_le_trans with (2 ^ Z.succ (Z.log2 n))%Z; [apply Z.log2_spec; lia|].
    apply Z.pow_le_mono_l. lia.
  - rewrite Hds. rewrite parseHex_app, Hval. cbn. lia.
Qed.

Lemma toString16_length (n : Z) :
  (0 < n < 2 ^ 32)%Z → String.length (toString16 n) ≤ 8.
Proof.
  intros Hn. unfold toString16.
  destruct (n <? 0)%Z eqn:Hneg; [apply Z.ltb_lt in Hneg; lia|].
  pose proof (hexDigits_length (S (Z.to_nat (Z.log2 n))) 7 n "") as H.
  simpl String.length in H. rewrite Nat.add_0_r in H. apply H.
  change (16 ^ Z.of_nat 8)%Z with (2 ^ 32)%Z. lia.
Qed.

Lemma repeatChar_length (n : nat) (c : ascii) : String.length (repeatChar n c) = n.
Proof. induction n as [|n IH]; simpl; [done|]. by rewrite IH. Qed.

Lemma padStart_length (n : nat) (c : ascii) (s : string) :
  String.length s ≤ n → String.length (padStart n c s) = n.
Proof.
  intros Hs. unfold padStart. rewrite string_length_app, repeatChar_length. lia.
Qed.

(** Two concatenations with prefixes of one length agree only when the
    suffixes do. *)
Lemma string_app_inj_length (p1 p2 s1 s2 : string) :
  String.length p1 = String.length p2 →
  p1 +:+ s1 = p2 +:+ s2 → s1 = s2.
Proof.
  revert p2. induction p1 as [|a p1 IH]; intros [|b p2] Hlen Heq;
    simpl in *; try discriminate; [done|].
  injection Heq as _ Heq. injection Hlen as Hlen. by apply (IH p2).
Qed.

Lemma timestampHex_length (c1 c2 : Chat.t) :
  sameTimestampKind c1 c2 →
  String.length (timestampHex c1) = String.length (timestampHex c2).
Proof.
  unfold sameTimestampKind, eightDigitTimestamp, timestampHex.
  intros [[H1 H2]|[H1 H2]].
  - destruct (Chat.conversationTimestamp c1) as [n1|],
             (Chat.conversationTimestamp c2) as [n2|]; try done.
    + by rewrite H1, H2.
    + by rewrite H1.
    + by rewrite H2.
  - destruct (Chat.conversationTimestamp c1) as [n1|]; [|done].
    destruct (Chat.conversationTimestamp c2) as [n2|]; [|done].
    assert (truthyNum (Some n1) = true) as ->.
    { simpl. apply negb_true_iff, Z.eqb_neq. lia. }
    assert (truthyNum (Some n2) = true) as ->.
    { simpl. apply negb_true_iff, Z.eqb_neq. lia. }
    rewrite !padStart_length; auto using toString16_length.
Qed.

Lemma waChatKey_prefix_length (pin : bool) (c1 c2 : Chat.t) :
  sameTimestampKind c1 c2 →
  String.length
    (((if pin then (if truthyFlag (Chat.pinned c1) then "1" else "0") else "")
      +:+ (if truthyFlag (Chat.archived c1) then "0" else "1"))
      +:+ timestampHex c1)%string
  = String.length
    (((if pin then (if truthyFlag (Chat.pinned c2) then "1" else "0") else "")
      +:+ (if truthyFlag (Chat.archived c2) then "0" else "1"))
      +:+ timestampHex c2)%string.
Proof.
  intros Hkind. rewrite !string_length_app, (timestampHex_length c1 c2 Hkind).
  by destruct pin, (truthyFlag (Chat.pinned c1)), (truthyFlag (Chat.pinned c2)),
    (truthyFlag (Chat.archived c1)), (truthyFlag (Chat.archived c2)).
Qed.

(** C2, as stated, fails: a chat without a timestamp whose id starts with
    eight hexadecimal digits and a chat with that timestamp have distinct
    ids and one and the same key, so that no comparator of keys can tell
    them apart. *)
Lemma waChatKey_collision :
  Chat.id (bareChat "65539100123@s.whatsapp.net" None)
  ≠ Chat.id (bareChat "123@s.whatsapp.net" (Some 1699975424%Z))
  ∧ ∀ localeCompare : string → string → comparison,
      key (waChatKey localeCompare true) (bareChat "65539100123@s.whatsapp.net" None)
      = key (waChatKey localeCompare true)
          (bareChat "123@s.whatsapp.net" (Some 1699975424%Z)).
Proof. split; [discriminate|]. intros localeCompare. reflexivity. Qed.

(** C2, amended: two chats with distinct ids whose timestamps are both
    absent (or zero), or both between 1 and 2^32 - 1, have distinct keys,
    the id breaking the tie of the other fields; the comparator hands the
    two keys, in reverse order, to the collation of the host, and what that
    answers on two distinct keys is not decided by the code. *)
Theorem waChatKey_distinct (localeCompare : string → string → comparison)
    (pin : bool) (c1 c2 : Chat.t) :
  Chat.id c1 ≠ Chat.id c2 →
  sameTimestampKind c1 c2 →
  key (waChatKey localeCompare pin) c1 ≠ key (waChatKey localeCompare pin) c2
  ∧ compare (waChatKey localeCompare pin)
      (key (waChatKey localeCompare pin) c1) (key (waChatKey localeCompare pin) c2)
    = localeCompare (key (waChatKey localeCompare pin) c2)
        (key (waChatKey localeCompare pin) c1).
Proof.
  intros Hid Hkind. split; [|done].
  intros Heq. apply Hid. cbn [key waChatKey] in Heq.
  eapply string_app_inj_length; [|exact Heq].
  by apply waChatKey_prefix_length.
Qed.

Lemma waChatKey_distinct_witness :
  key (waChatKey sampleLocaleCompare true)
    (bareChat "a@s.whatsapp.net" (Some 1700000000%Z))
  ≠ key (waChatKey sampleLocaleCompare true)
      (bareChat "b@s.whatsapp.net" (Some 1700000000%Z)).
Proof.
  apply (waChatKey_distinct sampleLocaleCompare true
           (bareChat "a@s.whatsapp.net" (Some 1700000000%Z))
           (bareChat "b@s.whatsapp.net" (Some 1700000000%Z))).
  - discriminate.
  - right. split; split; reflexivity.
Defined.

(** ** The ordered collection *)

Section KeyedDB_facts.
Context {T : Type} (cmp : Comparable T) (idGetter : T → string).

Lemma KeyedDB_hasId_true (v : T) : KeyedDB.hasId idGetter (idGetter v) v = true.
Proof. by apply bool_decide_eq_true_2. Qed.

Lemma KeyedDB_hasId_false (v : T) (id : string) :
  idGetter v ≠ id → KeyedDB.hasId idGetter id v = false.
Proof. apply bool_decide_eq_false_2. Qed.

Lemma KeyedDB_get_insertSorted_ne (v : T) (id : string) (db : list T) :
  idGetter v ≠ id →
  KeyedDB.get idGetter id (KeyedDB.insertSorted cmp v db) = KeyedDB.get idGetter id db.
Proof.
  intros Hne. unfold KeyedDB.get.
  induction db as [|w db IH]; cbn [KeyedDB.insertSorted List.find].
  - by rewrite KeyedDB_hasId_false.
  - destruct (compare cmp (key cmp v) (key cmp w)); cbn [List.find];
      rewrite ?(KeyedDB_hasId_false v id Hne); try done.
    by rewrite IH.
Qed.

Lemma KeyedDB_get_insertSorted_eq (v : T) (db : list T) :
  KeyedDB.get idGetter (idGetter v) db = None →
  KeyedDB.get idGetter (idGetter v) (KeyedDB.insertSorted cmp v db) = Some v.
Proof.
  unfold KeyedDB.get.
  induction db as [|w db IH]; cbn [KeyedDB.insertSorted List.find]; intros Hnone.
  - by rewrite KeyedDB_hasId_true.
  - destruct (KeyedDB.hasId idGetter (idGetter v) w) eqn:Hw; [done|].
    destruct (compare cmp (key cmp v) (key cmp w)); cbn [List.find];
      rewrite ?KeyedDB_hasId_true; try done.
    rewrite Hw. by apply IH.
Qed.

Lemma KeyedDB_get_deleteById_eq (id : string) (db : list T) :
  KeyedDB.get idGetter id (KeyedDB.deleteById idGetter id db) = None.
Proof.
  unfold KeyedDB.get, KeyedDB.deleteById.
  induction db as [|w db IH]; cbn [List.filter List.find]; [done|].
  destruct (KeyedDB.hasId idGetter id w) eqn:Hw; cbn [negb List.find]; [done|].
  by rewrite Hw.
Qed.

Lemma KeyedDB_get_deleteById_ne (id id' : string) (db : list T) :
  id ≠ id' →
  KeyedDB.get idGetter id' (KeyedDB.deleteById idGetter id db)
  = KeyedDB.get idGetter id' db.
Proof.
  intros Hne. unfold KeyedDB.get, KeyedDB.deleteById.
  induction db as [|w db IH]; cbn [List.filter List.find]; [done|].
  destruct (KeyedDB.hasId idGetter id w) eqn:Hw; cbn [negb List.find].
  - apply bool_decide_eq_true_1 in Hw.
    rewrite (KeyedDB_hasId_false w id'); [done|congruence].
  - by rewrite IH.
Qed.

Lemma KeyedDB_elem_of_insertSorted (x v : T) (db : list T) :
  x ∈ KeyedDB.insertSorted cmp v db ↔ x = v ∨ x ∈ db.
Proof.
  induction db as [|w db IH]; cbn [KeyedDB.insertSorted].
  - rewrite list_elem_of_singleton, elem_of_nil. tauto.
  - destruct (compare cmp (key cmp v) (key cmp w));
      rewrite ?elem_of_cons, ?IH; tauto.
Qed.

Lemma KeyedDB_elem_of_insertIfAbsent (x : T) (values db : list T) :
  x ∈ (KeyedDB.insertIfAbsent cmp idGetter values db).2 → x ∈ values ∨ x ∈ db.
Proof.
  unfold KeyedDB.insertIfAbsent.
  change db with (([] : list T, db).2) at 2. generalize ([] : list T, db) as acc.
  induction values as [|v values IH]; intros acc; cbn [foldl].
  - auto.
  - intros Hx. destruct (IH _ Hx) as [Hin|Hin].
    + left. by right.
    + unfold KeyedDB.insertOneIfAbsent in Hin.
      destruct (KeyedDB.get idGetter (idGetter v) acc.2); [by right|].
      apply KeyedDB_elem_of_insertSorted in Hin as [->|Hin]; [left; by left|by right].
Qed.


End KeyedDB_facts.

(** Iteration is by descending key: pinned first, archived last, the newer
    timestamp before the older. *)
Example chatsUpsert_order :
  Chat.id <$>
    chats (onChatsUpsert sampleLocaleCompare defaultConfig
             [bareChat "old" (Some 5%Z);
              {| Chat.id := "pin"; Chat.pinned := Some true; Chat.archived := None;
                 Chat.conversationTimestamp := Some 1%Z; Chat.unreadCount := None;
                 Chat.name := None |};
              bareChat "new" (Some 9%Z);
              {| Chat.id := "arch"; Chat.pinned := None; Chat.archived := Some true;
                 Chat.conversationTimestamp := Some 20%Z; Chat.unreadCount := None;
                 Chat.name := None |}]
             initialStore)
  = ["pin"; "new"; "old"; "arch"]%string.
Proof. reflexivity. Qed.

(** ** chats.update *)


Lemma chatMutator_id (update chat : Chat.t) :
  Chat.id (chatMutator update chat) = Chat.id update.
Proof. unfold chatMutator. by destruct (isPositive _). Qed.





(** The example of the specification: 2, then +3, then 0. *)
Example chatsUpdate_two_three_zero :
  Chat.unreadCount <$>
    chats (onChatsUpdate sampleLocaleCompare defaultConfig [unreadChat "a@s.whatsapp.net" (Some 3%Z)]
             (setChats [unreadChat "a@s.whatsapp.net" (Some 2%Z)] initialStore))
  = [Some 5%Z]
  ∧ Chat.unreadCount <$>
      chats (onChatsUpdate sampleLocaleCompare defaultConfig
               [unreadChat "a@s.whatsapp.net" (Some 3%Z);
                unreadChat "a@s.whatsapp.net" (Some 0%Z)]
               (setChats [unreadChat "a@s.whatsapp.net" (Some 2%Z)] initialStore))
    = [Some 0%Z]
  ∧ chats (onChatsUpdate sampleLocaleCompare defaultConfig [unreadChat "b@s.whatsapp.net" (Some 3%Z)]
             (setChats [unreadChat "a@s.whatsapp.net" (Some 2%Z)] initialStore))
    = [unreadChat "a@s.whatsapp.net" (Some 2%Z)].
Proof. repeat split; reflexivity. Qed.

(** ** labels.edit *)

(** C8, as stated, fails: with twenty labels stored, a labels.edit for the
    stored id "A" does not replace the label. *)
Lemma labelsEdit_full_rejects_known_id :
  ObjectRepository.count (labels fullStore) = 20
  ∧ labels fullStore !! "A"%string = Some (sampleLabel 0)
  ∧ Label.deleted renamedLabel = false
  ∧ labels (onLabelsEdit renamedLabel fullStore) !! "A"%string = Some (sampleLabel 0).
Proof. vm_compute. repeat split; reflexivity. Qed.

Lemma upsertById_below_capacity {T : Type} (id : string) (item : T) (r : gmap string T) :
  size r < 20 → ObjectRepository.upsertById id item r = Some (<[id := item]> r).
Proof.
  intros Hlt. unfold ObjectRepository.upsertById.
  rewrite bool_decide_eq_false_2; [done|]. intros [Heq _]. lia.
Qed.

(** C8, amended: a labels.edit without the deleted flag stores or replaces
    the label exactly when fewer than twenty labels are stored; with twenty
    stored the event changes nothing, also for an id that is stored. *)
Theorem labelsEdit_stores_below_capacity (label : Label.t) (s : Store) :
  Label.deleted label = false →
  labels (onLabelsEdit label s)
  = if (ObjectRepository.count (labels s) <? 20)%nat
    then <[Label.id label := label]> (labels s)
    else labels s.
Proof.
  intros Hdel. cbn [onLabelsEdit setLabels labels]. unfold labelsEdit. rewrite Hdel.
  destruct (ObjectRepository.count (labels s) <? 20)%nat eqn:Hlt; [|done].
  apply Nat.ltb_lt in Hlt. by rewrite upsertById_below_capacity.
Qed.

Lemma labelsEdit_stores_below_capacity_witness :
  labels (onLabelsEdit renamedLabel initialStore)
  = <["A"%string := renamedLabel]> (labels initialStore).
Proof. exact (labelsEdit_stores_below_capacity renamedLabel initialStore eq_refl). Defined.

(** ** What each event leaves alone *)

Section Frame.
Variable localeCompare : string → string → comparison.
Variable jidDecode : string → option DecodedJid.t.
Variable md5Base64 : string → string.
Variable config : Config.t.

Lemma messagesUpsertOne_frame (type : string) (s : Store) (msg : WAMessage.t) :
  labels (messagesUpsertOne localeCompare jidDecode config type s msg) = labels s
  ∧ state (messagesUpsertOne localeCompare jidDecode config type s msg) = state s.
Proof.
  unfold messagesUpsertOne. destruct (bool_decide (type = "notify"%string)); [|done].
  by destruct (KeyedDB.get _ _ _).
Qed.

Lemma onMessagesUpsert_frame (newMessages : list WAMessage.t) (type : string) (s : Store) :
  labels (onMessagesUpsert localeCompare jidDecode config newMessages type s) = labels s
  ∧ state (onMessagesUpsert localeCompare jidDecode config newMessages type s) = state s.
Proof.
  unfold onMessagesUpsert. destruct (_ || _); [|done].
  revert s. induction newMessages as [|msg rest IH]; intros s; cbn [foldl]; [done|].
  destruct (IH (messagesUpsertOne localeCompare jidDecode config type s msg)) as [-> ->].
  apply messagesUpsertOne_frame.
Qed.

Lemma onMessagingHistorySet_frame (newChats : list Chat.t) (newContacts : list Contact.t)
    (newMessages : list WAMessage.t) (isLatest : bool) (s : Store) :
  labels (onMessagingHistorySet localeCompare config newChats newContacts newMessages isLatest s)
  = labels s
  ∧ state (onMessagingHistorySet localeCompare config newChats newContacts newMessages isLatest s)
    = state s.
Proof.
  unfold onMessagingHistorySet. by destruct isLatest.
Qed.

(** Only labels.edit writes to [labels]. *)
Lemma apply_labels (s : Store) (e : Event) :
  labels (apply localeCompare jidDecode md5Base64 config s e)
  = match e with
    | LabelsEdit label => labelsEdit label (labels s)
    | _ => labels s
    end.
Proof.
  destruct e; cbn [apply]; try done.
  - by destruct update.
  - apply onMessagingHistorySet_frame.
  - unfold onLabelsAssociation. by repeat destruct (bool_decide _).
  - apply onMessagesUpsert_frame.
Qed.

(** Only connection.update writes to [state]. *)
Lemma apply_state (s : Store) (e : Event) :
  state (apply localeCompare jidDecode md5Base64 config s e)
  = match e with
    | ConnectionUpdate (Some update) => assign (state s) update
    | _ => state s
    end.
Proof.
  destruct e; cbn [apply]; try done.
  - by destruct update.
  - apply onMessagingHistorySet_frame.
  - unfold onLabelsAssociation. by repeat destruct (bool_decide _).
  - apply onMessagesUpsert_frame.
Qed.

Lemma run_snoc (s : Store) (events : list Event) (e : Event) :
  run localeCompare jidDecode md5Base64 config s (events ++ [e])
  = apply localeCompare jidDecode md5Base64 config (run localeCompare jidDecode md5Base64 config s events) e.
Proof. unfold run. by rewrite foldl_app. Qed.

Lemma run_labelsEdit (s : Store) (ls : list Label.t) :
  labels (run localeCompare jidDecode md5Base64 config s (LabelsEdit <$> ls))
  = foldl (λ r label, labelsEdit label r) (labels s) ls.
Proof.
  unfold run. revert s. induction ls as [|label ls IH]; intros s; [done|].
  cbn [fmap list_fmap foldl]. by rewrite IH.
Qed.

End Frame.

(** ** The capacity of the repository of labels *)

Lemma labelsEdit_size (label : Label.t) (r : gmap string Label.t) :
  size r ≤ 20 → size (labelsEdit label r) ≤ 20.
Proof.
  intros Hle. unfold labelsEdit, ObjectRepository.deleteById, ObjectRepository.count.
  destruct (Label.deleted label).
  - rewrite map_size_delete. destruct (r !! Label.id label); cbn; lia.
  - destruct (size r <? 20)%nat eqn:Hlt; [|done].
    apply Nat.ltb_lt in Hlt. rewrite upsertById_below_capacity by done.
    cbn [from_option id]. rewrite map_size_insert. destruct (r !! Label.id label); cbn; lia.
Qed.

Lemma labelsEdit_at_capacity (label : Label.t) (r : gmap string Label.t) :
  Label.deleted label = false → size r = 20 → labelsEdit label r = r.
Proof.
  intros Hdel Hsize. unfold labelsEdit, ObjectRepository.count.
  by rewrite Hdel, Hsize.
Qed.

(** Distinct new labels are all stored while there is room. *)
Lemma labelsEdit_distinct (ls : list Label.t) (r : gmap string Label.t) :
  NoDup (Label.id <$> ls) →
  Forall (λ label, Label.deleted label = false) ls →
  (∀ label, label ∈ ls → r !! Label.id label = None) →
  size r + length ls ≤ 20 →
  size (foldl (λ r label, labelsEdit label r) r ls) = size r + length ls
  ∧ (∀ label, label ∈ ls →
       foldl (λ r label, labelsEdit label r) r ls !! Label.id label = Some label)
  ∧ (∀ k, k ∉ Label.id <$> ls →
       foldl (λ r label, labelsEdit label r) r ls !! k = r !! k).
Proof.
  revert r. induction ls as [|label ls IH]; intros r Hnodup Hdel Hfresh Hroom.
  - cbn [foldl length]. split; [lia|]. split; [|done].
    intros label Hin. by apply elem_of_nil in Hin.
  - cbn [fmap list_fmap] in Hnodup. apply NoDup_cons in Hnodup as [Hnotin Hnodup].
    apply Forall_cons in Hdel as [Hdel1 Hdel].
    cbn [length] in Hroom. cbn [foldl].
    assert (labelsEdit label r = <[Label.id label := label]> r) as Hstep.
    { unfold labelsEdit, ObjectRepository.count. rewrite Hdel1.
      assert ((size r <? 20)%nat = true) as -> by (apply Nat.ltb_lt; lia).
      rewrite upsertById_below_capacity by lia. done. }
    rewrite Hstep.
    assert (r !! Label.id label = None) as Hnone by (apply Hfresh; by left).
    destruct (IH (<[Label.id label := label]> r)) as (Hsize & Hin & Hout); try done.
    + intros l Hl. rewrite lookup_insert_ne; [apply Hfresh; by right|].
      intros Heq. apply Hnotin. rewrite Heq. by apply list_elem_of_fmap_2.
    + rewrite map_size_insert, Hnone. cbn [length] in *. lia.
    + split; [rewrite Hsize, map_size_insert, Hnone; cbn [length]; lia|]. split.
      * intros l [->|Hl]%elem_of_cons; [|by apply Hin].
        rewrite Hout by done. apply lookup_insert_eq.
      * intros k Hk. cbn [fmap list_fmap] in Hk.
        apply not_elem_of_cons in Hk as [Hne Hk].
        rewrite Hout by done. by apply lookup_insert_ne.
Qed.

(** C9: after any sequence of events from the initial store at most twenty
    labels are stored; twenty-one labels.edit events for distinct labels
    leave exactly the first twenty stored and the twenty-first out. *)
Theorem labels_count_at_most_20 (localeCompare : string → string → comparison)
    (jidDecode : string → option DecodedJid.t)
    (md5Base64 : string → string) (config : Config.t) :
  (∀ events : list Event,
     ObjectRepository.count
       (labels (run localeCompare jidDecode md5Base64 config initialStore events)) ≤ 20)
  ∧ (∀ (ls : list Label.t) (last : Label.t),
       length ls = 20 →
       NoDup (Label.id <$> (ls ++ [last])) →
       Forall (λ label, Label.deleted label = false) (ls ++ [last]) →
       let s20 := run localeCompare jidDecode md5Base64 config initialStore (LabelsEdit <$> ls) in
       let s21 :=
         run localeCompare jidDecode md5Base64 config initialStore (LabelsEdit <$> (ls ++ [last])) in
       ObjectRepository.count (labels s21) = 20
       ∧ labels s21 = labels s20
       ∧ (∀ label, label ∈ ls → labels s21 !! Label.id label = Some label)
       ∧ labels s21 !! Label.id last = None).
Proof.
  split.
  - intros events. induction events as [|e events IH] using rev_ind.
    + cbn. rewrite map_size_empty. lia.
    + rewrite run_snoc, apply_labels. unfold ObjectRepository.count in *.
      destruct e; try done. by apply labelsEdit_size.
  - intros ls last Hlen Hnodup Hdel s20 s21. subst s20 s21.
    rewrite !run_labelsEdit, foldl_app. cbn [foldl].
    rewrite fmap_app in Hnodup. apply NoDup_app in Hnodup as (Hnodup & Hlast & _).
    apply Forall_app in Hdel as [Hdel Hdel1]. rewrite Forall_singleton in Hdel1.
    destruct (labelsEdit_distinct ls (labels initialStore)) as (Hsize & Hin & Hout);
      try done.
    { cbn [labels initialStore]. rewrite map_size_empty. lia. }
    cbn [labels initialStore] in *. rewrite map_size_empty in Hsize.
    rewrite labelsEdit_at_capacity by (done || lia).
    unfold ObjectRepository.count. split; [lia|]. split; [done|]. split; [done|].
    rewrite Hout; [done|]. intros Hmem. apply (Hlast _ Hmem).
    cbn [fmap list_fmap]. by left.
Qed.

Lemma labels_count_at_most_20_witness :
  ObjectRepository.count
    (labels (run sampleLocaleCompare (λ _, None) (λ s, s) defaultConfig initialStore
               (LabelsEdit <$> (sampleLabels 20 ++ [sampleLabel 20])))) = 20.
Proof.
  apply (proj2 (labels_count_at_most_20 sampleLocaleCompare (λ _, None) (λ s, s) defaultConfig)
           (sampleLabels 20) (sampleLabel 20)).
  - reflexivity.
  - apply (bool_decide_unpack _). by vm_compute.
  - repeat constructor.
Defined.

(** ** connection.update *)

(** The bag [state] itself: it starts as the single field
    connection = 'close'; a connection.update with a payload writes the
    payload's fields over the bag, keeps every field the payload does not
    name and touches no other collection; the field connection stays present
    whatever events follow. *)
Lemma connectionUpdate_merges_state (localeCompare : string → string → comparison) :
  state initialStore = {[ "connection"%string := VStr "close" ]}
  ∧ dom (state initialStore) = {[ "connection"%string ]}
  ∧ (∀ (update : obj) (s : Store) (f : string),
       state (onConnectionUpdate (Some update) s) !! f
       = match update !! f with
         | Some v => Some v
         | None => state s !! f
         end)
  ∧ (∀ (update : obj) (s : Store),
       dom (state s) ⊆ dom (state (onConnectionUpdate (Some update) s))
       ∧ setState (state s) (onConnectionUpdate (Some update) s) = s)
  ∧ (∀ (jidDecode : string → option DecodedJid.t) (md5Base64 : string → string)
       (config : Config.t) (events : list Event),
       is_Some (state (run localeCompare jidDecode md5Base64 config initialStore events)
                !! "connection"%string)).
Proof.
  split; [done|]. split; [apply dom_singleton_L|]. split; [|split].
  - intros update s f. cbn. unfold assign. rewrite lookup_union.
    by destruct (update !! f), (state s !! f).
  - intros update s. split; [|by destruct s].
    cbn. unfold assign. rewrite dom_union_L. apply union_subseteq_r.
  - intros jidDecode md5Base64 config events.
    induction events as [|e events IH] using rev_ind.
    + cbn. by rewrite lookup_singleton_eq.
    + rewrite run_snoc, apply_state.
      destruct e as [[update|]| | | | | | | | | |]; try done.
      unfold assign. rewrite lookup_union.
      destruct IH as [v ->]. by destruct (update !! "connection"%string).
Qed.

(** The absent payload is rejected. *)
Lemma connectionUpdate_absent (s : Store) : onConnectionUpdate None s = s.
Proof. done. Qed.

(** C10: the bag of the connection state is not exposed.  [state] is not
    among the properties of the object that the store returns; what a
    consumer reads from that object is the same before and after every
    connection.update, and the same for two stores that differ in the bag
    only; yet the bag does change: after the update {connection: 'open'}
    on the new store it is no longer the bag of the start. *)
Theorem connectionState_not_exported :
  ("state"%string ∉ exportedNames)
  ∧ state (onConnectionUpdate (Some {[ "connection"%string := VStr "open" ]}) initialStore)
    ≠ state initialStore
  ∧ (∀ (update : option obj) (s : Store),
       exports (onConnectionUpdate update s) = exports s)
  ∧ (∀ (bag : obj) (s : Store), exports (setState bag s) = exports s).
Proof.
  split; [|split; [|split]].
  - unfold exportedNames. intros Hin.
    repeat (apply elem_of_cons in Hin as [Hin|Hin]; [discriminate Hin|]).
    by apply elem_of_nil in Hin.
  - cbn. intros Heq.
    assert (assign ({[ "connection"%string := VStr "close" ]} : obj)
              {[ "connection"%string := VStr "open" ]} !! "connection"%string
            = ({[ "connection"%string := VStr "close" ]} : obj) !! "connection"%string)
      as Hlookup by (by rewrite Heq).
    unfold assign in Hlookup. rewrite lookup_union, !lookup_singleton_eq in Hlookup.
    discriminate Hlookup.
  - by intros [update|] s.
  - done.
Qed.

(** ** Objects with observed key order *)

Section JsObject_facts.
Context {V : Type}.
Implicit Types (o : list (string * V)) (k : string) (v : V).

Lemma JsObject_get_set k k' v o :
  JsObject.get k' (JsObject.set k v o)
  = if decide (k = k') then Some v else JsObject.get k' o.
Proof.
  induction o as [|[k0 v0] o IH]; cbn [JsObject.set JsObject.get].
  - done.
  - destruct (decide (k0 = k)) as [->|Hne]; cbn [JsObject.get].
    + by destruct (decide (k = k')).
    + rewrite IH. destruct (decide (k0 = k')) as [->|]; [|done].
      by rewrite decide_False.
Qed.

Lemma JsObject_get_delete k k' o :
  JsObject.get k' (JsObject.delete k o)
  = if decide (k = k') then None else JsObject.get k' o.
Proof.
  induction o as [|[k0 v0] o IH]; cbn [JsObject.delete JsObject.get].
  - by destruct (decide (k = k')).
  - destruct (decide (k0 = k)) as [->|Hne]; cbn [JsObject.get].
    + rewrite IH. destruct (decide (k = k')); done.
    + rewrite IH. destruct (decide (k0 = k')) as [->|]; [|done].
      by rewrite decide_False.
Qed.

Lemma JsObject_get_None k o : JsObject.get k o = None ↔ k ∉ JsObject.keys o.
Proof.
  unfold JsObject.keys. induction o as [|[k0 v0] o IH]; cbn [JsObject.get fmap list_fmap fst].
  - split; [intros _; apply not_elem_of_nil|done].
  - rewrite not_elem_of_cons. destruct (decide (k0 = k)) as [->|Hne].
    + split; [done|]. by intros [? _].
    + rewrite IH. split; [by split|by intros [_ ?]].
Qed.

Lemma JsObject_get_foldl_delete (ks : list string) k o :
  JsObject.get k (foldl (λ o jid, JsObject.delete jid o) o ks)
  = if decide (k ∈ ks) then None else JsObject.get k o.
Proof.
  revert o. induction ks as [|k0 ks IH]; intros o; cbn [foldl].
  - rewrite decide_False; [done|apply not_elem_of_nil].
  - rewrite IH, JsObject_get_delete.
    destruct (decide (k ∈ ks)) as [Hin|Hnotin].
    + rewrite decide_True; [done|by right].
    + destruct (decide (k0 = k)) as [->|Hne].
      * rewrite decide_True; [done|by left].
      * rewrite decide_False; [done|]. rewrite elem_of_cons. by intros [->|?].
Qed.

End JsObject_facts.

(** ** contactsUpsert *)

Lemma contactsUpsert_fold (newContacts : list Contact.t)
    (acc : list (string * Contact.t) * list string) :
  (∀ k, k ∈ (foldl contactsUpsertOne acc newContacts).2
        ↔ k ∈ acc.2 ∧ k ∉ Contact.id <$> newContacts)
  ∧ (∀ k, k ∉ Contact.id <$> newContacts →
          JsObject.get k (foldl contactsUpsertOne acc newContacts).1
          = JsObject.get k acc.1)
  ∧ (∀ k, k ∈ Contact.id <$> newContacts →
          is_Some (JsObject.get k (foldl contactsUpsertOne acc newContacts).1))
  ∧ (NoDup (Contact.id <$> newContacts) →
     ∀ contact, contact ∈ newContacts →
       JsObject.get (Contact.id contact) (foldl contactsUpsertOne acc newContacts).1
       = Some (spreadContact (JsObject.get (Contact.id contact) acc.1) contact)).
Proof.
  revert acc. induction newContacts as [|c0 rest IH]; intros acc;
    cbn [foldl fmap list_fmap].
  - split; [|split; [|split]].
    + intros k. split; [intros Hk; split; [done|apply not_elem_of_nil]|by intros [? _]].
    + done.
    + intros k Hk. by apply elem_of_nil in Hk.
    + intros _ contact Hmem. by apply elem_of_nil in Hmem.
  - destruct (IH (contactsUpsertOne acc c0)) as (Hold & Hother & Hin & Hlast).
    cbn [contactsUpsertOne fst snd] in *. split; [|split; [|split]].
    + intros k. rewrite Hold, not_elem_of_cons. split.
      * intros [[Hk Hne]%list_elem_of_In%filter_In Hnotin].
        apply negb_true_iff, bool_decide_eq_false_1 in Hne.
        split; [by apply list_elem_of_In|done].
      * intros [Hk [Hne Hnotin]]. split; [|done].
        apply list_elem_of_In, filter_In. split; [by apply list_elem_of_In|].
        by apply negb_true_iff, bool_decide_eq_false_2.
    + intros k [Hne Hnotin]%not_elem_of_cons.
      rewrite Hother by done. rewrite JsObject_get_set. by rewrite decide_False.
    + intros k Hk. destruct (decide (k ∈ Contact.id <$> rest)) as [Hrest|Hrest].
      * by apply Hin.
      * apply elem_of_cons in Hk as [->|?]; [|done].
        rewrite Hother by done. rewrite JsObject_get_set, decide_True by done. by eexists.
    + intros [Hnotin Hnodup]%NoDup_cons contact [->|Hmem]%elem_of_cons.
      * rewrite Hother by done. by rewrite JsObject_get_set, decide_True.
      * rewrite Hlast by done. rewrite JsObject_get_set, decide_False; [done|].
        intros Heq. apply Hnotin. rewrite Heq. by apply list_elem_of_fmap_2.
Qed.

(** ** The lists of messages *)

Section OrderedDictionary_facts.
Context {T : Type} (idGetter : T → string).

Lemma OrderedDictionary_get_Some (id : string) (d : list T) (x : T) :
  OrderedDictionary.get idGetter id d = Some x → x ∈ d ∧ idGetter x = id.
Proof.
  intros [Hin Hid]%find_some. split; [by apply list_elem_of_In|].
  by apply bool_decide_eq_true_1 in Hid.
Qed.

(** After an upsert the list holds the item and, apart from it, only what
    it held. *)
Lemma OrderedDictionary_elem_of_upsert (item x : T) (mode : Direction) (d : list T) :
  x ∈ OrderedDictionary.upsert idGetter item mode d → x = item ∨ x ∈ d.
Proof.
  unfold OrderedDictionary.upsert, OrderedDictionary.replace.
  destruct (OrderedDictionary.get idGetter (idGetter item) d).
  - intros (y & <- & Hy)%list_elem_of_In%in_map_iff.
    destruct (bool_decide _); [by left|right; by apply list_elem_of_In].
  - destruct mode.
    + rewrite elem_of_app, list_elem_of_singleton. tauto.
    + rewrite elem_of_cons. tauto.
Qed.

Lemma OrderedDictionary_upsert_holds (item : T) (mode : Direction) (d : list T) :
  item ∈ OrderedDictionary.upsert idGetter item mode d.
Proof.
  unfold OrderedDictionary.upsert, OrderedDictionary.replace.
  destruct (OrderedDictionary.get idGetter (idGetter item) d) as [x|] eqn:Hget.
  - apply OrderedDictionary_get_Some in Hget as [Hin Hid].
    apply list_elem_of_In, in_map_iff. exists x. split; [|by apply list_elem_of_In].
    by rewrite bool_decide_eq_true_2.
  - destruct mode; [apply elem_of_app; right; by left|by left].
Qed.

(** An upsert keeps every id that the list knows. *)
Lemma OrderedDictionary_upsert_keeps (item : T) (mode : Direction) (d : list T) (id : string) :
  (∃ x, x ∈ d ∧ idGetter x = id) →
  ∃ x, x ∈ OrderedDictionary.upsert idGetter item mode d ∧ idGetter x = id.
Proof.
  intros (x & Hin & Hid).
  unfold OrderedDictionary.upsert, OrderedDictionary.replace.
  destruct (OrderedDictionary.get idGetter (idGetter item) d).
  - destruct (decide (idGetter x = idGetter item)) as [Heq|Hne].
    + exists item. split; [|congruence].
      apply list_elem_of_In, in_map_iff. exists x.
      split; [by rewrite bool_decide_eq_true_2|by apply list_elem_of_In].
    + exists x. split; [|done].
      apply list_elem_of_In, in_map_iff. exists x.
      split; [by rewrite bool_decide_eq_false_2|by apply list_elem_of_In].
  - exists x. split; [|done].
    destruct mode; [apply elem_of_app; by left|by right].
Qed.

End OrderedDictionary_facts.

Lemma upsertMessage_lookup (jid jid' : string) (msg : WAMessage.t) (mode : Direction)
    (msgs : gmap string (list WAMessage.t)) :
  upsertMessage jid msg mode msgs !! jid'
  = if decide (jid = jid')
    then Some (OrderedDictionary.upsert waMessageID msg mode (default [] (msgs !! jid)))
    else msgs !! jid'.
Proof.
  unfold upsertMessage, assertMessageList.
  destruct (msgs !! jid) as [l|] eqn:Hl; cbn [from_option id].
  - rewrite lookup_insert. by destruct (decide (jid = jid')).
  - rewrite lookup_insert. destruct (decide (jid = jid')); [done|].
    by rewrite lookup_insert_ne.
Qed.

Lemma prependMessage_from (source : list WAMessage.t) (batch : list WAMessage.t)
    (msgs : gmap string (list WAMessage.t)) :
  (∀ m, m ∈ batch → m ∈ source) →
  messagesFrom source msgs →
  messagesFrom source (foldl prependMessage msgs batch).
Proof.
  revert msgs. induction batch as [|msg batch IH]; intros msgs Hsub Hfrom; [done|].
  cbn [foldl]. apply IH; [intros m Hm; apply Hsub; by right|].
  intros jid l m. unfold prependMessage. rewrite upsertMessage_lookup.
  destruct (decide _) as [<-|Hne]; [|apply Hfrom].
  intros [= <-] [->|Hin]%OrderedDictionary_elem_of_upsert.
  - split; [apply Hsub; by left|done].
  - destruct (msgs !! _) as [l|] eqn:Hl; [by apply (Hfrom _ l)|].
    by apply elem_of_nil in Hin.
Qed.

Lemma prependMessage_keeps (batch : list WAMessage.t) (jid mid : string)
    (msgs : gmap string (list WAMessage.t)) :
  knowsMessage jid mid msgs → knowsMessage jid mid (foldl prependMessage msgs batch).
Proof.
  revert msgs. induction batch as [|msg batch IH]; intros msgs Hknows; [done|].
  cbn [foldl]. apply IH. destruct Hknows as (l & m & Hl & Hin & Hid).
  unfold knowsMessage, prependMessage. rewrite upsertMessage_lookup.
  destruct (decide _) as [Heq|Hne]; [|by exists l, m].
  rewrite Heq, Hl. cbn [from_option id].
  destruct (OrderedDictionary_upsert_keeps waMessageID msg Prepend l mid) as (x & Hx & Hxid);
    [by exists m|].
  by eexists _, x.
Qed.

Lemma prependMessage_holds (batch : list WAMessage.t)
    (msgs : gmap string (list WAMessage.t)) (msg : WAMessage.t) :
  msg ∈ batch →
  knowsMessage (MessageKey.remoteJid (WAMessage.key msg)) (waMessageID msg)
    (foldl prependMessage msgs batch).
Proof.
  revert msgs. induction batch as [|m0 batch IH]; intros msgs Hin;
    [by apply elem_of_nil in Hin|].
  cbn [foldl]. apply elem_of_cons in Hin as [->|Hin]; [|by apply IH].
  apply prependMessage_keeps. unfold knowsMessage, prependMessage.
  rewrite upsertMessage_lookup, decide_True by done.
  eexists _, m0. split; [done|]. split; [|done].
  apply OrderedDictionary_upsert_holds.
Qed.

Lemma messages_deleted (msgs : gmap string (list WAMessage.t)) :
  foldr (λ id m, delete id m) msgs (elements (dom msgs)) = ∅.
Proof.
  apply map_eq. intros k. rewrite lookup_empty.
  destruct (decide (k ∈ elements (dom msgs))) as [Hin|Hnotin].
  - by apply lookup_foldr_delete.
  - rewrite lookup_foldr_delete_not_elem_of by done.
    apply not_elem_of_dom. by rewrite <- elem_of_elements.
Qed.

(** ** insertIfAbsent *)

Section insertIfAbsent_facts.
Context {T : Type} (cmp : Comparable T) (idGetter : T → string).

Lemma KeyedDB_get_Some (id : string) (db : list T) (v : T) :
  KeyedDB.get idGetter id db = Some v → v ∈ db ∧ idGetter v = id.
Proof.
  intros [Hin Hid]%find_some. split; [by apply list_elem_of_In|].
  by apply bool_decide_eq_true_1 in Hid.
Qed.

Lemma insertOneIfAbsent_keeps (acc : list T * list T) (v : T) (id : string) :
  is_Some (KeyedDB.get idGetter id acc.2) →
  is_Some (KeyedDB.get idGetter id (KeyedDB.insertOneIfAbsent cmp idGetter acc v).2).
Proof.
  intros Hsome. unfold KeyedDB.insertOneIfAbsent.
  destruct (KeyedDB.get idGetter (idGetter v) acc.2) eqn:Hv; [done|]. cbn [snd].
  destruct (decide (idGetter v = id)) as [<-|Hne].
  - rewrite Hv in Hsome. by destruct Hsome.
  - by rewrite KeyedDB_get_insertSorted_ne.
Qed.

Lemma insertOneIfAbsent_holds (acc : list T * list T) (v : T) :
  is_Some (KeyedDB.get idGetter (idGetter v)
             (KeyedDB.insertOneIfAbsent cmp idGetter acc v).2).
Proof.
  unfold KeyedDB.insertOneIfAbsent.
  destruct (KeyedDB.get idGetter (idGetter v) acc.2) eqn:Hv; [by rewrite Hv|].
  cbn [snd]. rewrite KeyedDB_get_insertSorted_eq by done. by eexists.
Qed.

Lemma insertIfAbsent_keeps (values : list T) (acc : list T * list T) (id : string) :
  is_Some (KeyedDB.get idGetter id acc.2) →
  is_Some (KeyedDB.get idGetter id
             (foldl (KeyedDB.insertOneIfAbsent cmp idGetter) acc values).2).
Proof.
  revert acc. induction values as [|v values IH]; intros acc Hsome; [done|].
  cbn [foldl]. by apply IH, insertOneIfAbsent_keeps.
Qed.

(** Every id of the batch is in the collection afterwards. *)
Lemma insertIfAbsent_holds (values db : list T) (v : T) :
  v ∈ values →
  is_Some (KeyedDB.get idGetter (idGetter v)
             (KeyedDB.insertIfAbsent cmp idGetter values db).2).
Proof.
  unfold KeyedDB.insertIfAbsent. generalize ([] : list T, db) as acc.
  induction values as [|v0 values IH]; intros acc Hin; [by apply elem_of_nil in Hin|].
  cbn [foldl]. apply elem_of_cons in Hin as [->|Hin]; [|by apply IH].
  apply insertIfAbsent_keeps, insertOneIfAbsent_holds.
Qed.

End insertIfAbsent_facts.

(** ** messaging-history.set *)

(** History is prepended: the batch ends up in reverse order, in front of
    what the list held. *)
Example historySet_prepends :
  messages (onMessagingHistorySet sampleLocaleCompare defaultConfig [] []
              [sampleMessage "A@s.whatsapp.net" "m0" "zero";
               sampleMessage "A@s.whatsapp.net" "m3" "three"] false storeAB)
  !! "A@s.whatsapp.net"%string
  = Some [sampleMessage "A@s.whatsapp.net" "m3" "three";
          sampleMessage "A@s.whatsapp.net" "m0" "zero";
          sampleMessage "A@s.whatsapp.net" "m1" "one";
          sampleMessage "A@s.whatsapp.net" "m2" "two"].
Proof. reflexivity. Qed.

Example historySet_latest_example :
  chats (onMessagingHistorySet sampleLocaleCompare defaultConfig
           [bareChat "C@s.whatsapp.net" None] [] [] true storeAB)
  = [bareChat "C@s.whatsapp.net" None]
  ∧ messages (onMessagingHistorySet sampleLocaleCompare defaultConfig
                [bareChat "C@s.whatsapp.net" None] [] [] true storeAB) = ∅.
Proof. split; [reflexivity|]. cbn. apply messages_deleted. Qed.

(** ** contacts.update *)

Section ContactsUpdate_facts.
Variable jidDecode : string → option DecodedJid.t.
Variable md5Base64 : string → string.
Variable config : Config.t.

Lemma findContact_stored (update : Contact.t) (cs : list (string * Contact.t))
    (k : string) (contact : Contact.t) :
  findContact jidDecode md5Base64 update cs = Some (Some (k, contact)) →
  JsObject.get k cs = Some contact.
Proof.
  unfold findContact.
  destruct (JsObject.get (Contact.id update) cs) as [c|] eqn:Hdirect.
  - by intros [= <- <-].
  - destruct (contactHashes _ _ _); [|done].
    generalize (default ""%string
                  (fst <$> find (λ '(_, b), bool_decide (b = Contact.id update)) l)).
    intros k0. destruct (JsObject.get k0 cs) as [c|] eqn:Hget; cbn; [|done].
    intros [= <- <-]. done.
Qed.

Lemma applyImgUrl_id (update contact : Contact.t) :
  Contact.id (applyImgUrl config update contact) = Contact.id contact.
Proof. unfold applyImgUrl. by repeat destruct (bool_decide _). Qed.

Lemma assignContact_self (contact : Contact.t) : assignContact contact contact = contact.
Proof.
  destruct contact as [i f]. unfold assignContact, assign. cbn. f_equal.
  apply (idemp_L (∪)).
Qed.

(** The object that matched holds, after the iteration, the result of the
    sentinel step and nothing else: the last assignment copies the contact
    onto itself. *)
Lemma contactsUpdateOne_stored (update : Contact.t) (cs : list (string * Contact.t))
    (k : string) (contact : Contact.t) :
  findContact jidDecode md5Base64 update cs = Some (Some (k, contact)) →
  JsObject.get k (contactsUpdateOne jidDecode md5Base64 config update cs).2
  = Some (applyImgUrl config update contact).
Proof.
  intros Hfind. unfold contactsUpdateOne. rewrite Hfind.
  set (contact' := applyImgUrl config update contact).
  destruct (JsObject.get (Contact.id contact') _) as [target|] eqn:Htarget; cbn [snd].
  - rewrite JsObject_get_set. rewrite JsObject_get_set in Htarget.
    destruct (decide (Contact.id contact' = k)) as [Heq|Hne].
    + rewrite decide_True in Htarget by done. injection Htarget as <-.
      by rewrite assignContact_self.
    + rewrite JsObject_get_set. by rewrite decide_True.
  - rewrite JsObject_get_set. by rewrite decide_True.
Qed.

(** An update that matches nothing ends the handler: nothing is written
    and the rest of the batch is not looked at. *)
Lemma contactsUpdateLoop_unmatched (update : Contact.t) (rest : list Contact.t)
    (cs : list (string * Contact.t)) :
  findContact jidDecode md5Base64 update cs = Some None →
  contactsUpdateLoop jidDecode md5Base64 config (update :: rest) cs = (Return, cs).
Proof.
  intros Hfind. cbn [contactsUpdateLoop]. unfold contactsUpdateOne. by rewrite Hfind.
Qed.

End ContactsUpdate_facts.

Lemma substring_length_le (n : nat) (s : string) :
  String.length (String.substring 0 n s) ≤ n.
Proof.
  revert s. induction n as [|n IH]; intros [|a s]; cbn; try lia.
  specialize (IH s). lia.
Qed.



Section ContactsUpdate_bugs.
Variable jidDecode : string → option DecodedJid.t.
Variable md5Base64 : string → string.
Variable config : Config.t.

Lemma applyImgUrl_other_fields (update contact : Contact.t) (f : string) :
  f ≠ "imgUrl"%string →
  Contact.fields (applyImgUrl config update contact) !! f = Contact.fields contact !! f.
Proof.
  intros Hne. unfold applyImgUrl, setImgUrl, deleteImgUrl.
  repeat destruct (bool_decide _); cbn; [by rewrite lookup_insert_ne|by rewrite lookup_delete_ne|done].
Qed.

(** Whatever an update carries, no field of the matched contact other than
    imgUrl changes. *)
Lemma contactsUpdateOne_ignores_fields (update : Contact.t)
    (cs : list (string * Contact.t)) (k : string) (contact : Contact.t) (f : string) :
  findContact jidDecode md5Base64 update cs = Some (Some (k, contact)) →
  f ≠ "imgUrl"%string →
  ∃ contact',
    JsObject.get k (contactsUpdateOne jidDecode md5Base64 config update cs).2
    = Some contact'
    ∧ Contact.fields contact' !! f = Contact.fields contact !! f.
Proof.
  intros Hfind Hne. eexists. split; [by apply contactsUpdateOne_stored|].
  by apply applyImgUrl_other_fields.
Qed.

(** A fingerprint has at most three characters. *)
Lemma contactHashes_short (cs : list (string * Contact.t)) (hashes : list (string * string)) :
  contactHashes jidDecode md5Base64 cs = Some hashes →
  Forall (λ kh, String.length kh.2 ≤ 3) hashes.
Proof.
  unfold contactHashes. intros Hall%mapM_Some.
  induction Hall as [|contactId kh ks hs Hkh _ IH]; constructor; [|done].
  destruct (jidDecode contactId); [|done]. injection Hkh as <-.
  apply substring_length_le.
Qed.

Lemma findContact_long_id (update : Contact.t) (cs : list (string * Contact.t)) :
  JsObject.get (Contact.id update) cs = None →
  JsObject.get ""%string cs = None →
  3 < String.length (Contact.id update) →
  findContact jidDecode md5Base64 update cs = None
  ∨ findContact jidDecode md5Base64 update cs = Some None.
Proof.
  intros Hdirect Hempty Hlong. unfold findContact. rewrite Hdirect.
  destruct (contactHashes _ _ _) as [hashes|] eqn:Hhashes; [right|by left].
  apply contactHashes_short in Hhashes.
  assert (find (λ '(_, b), bool_decide (b = Contact.id update)) hashes = None) as ->.
  { induction Hhashes as [|[k h] hashes Hshort _ IH]; [done|].
    cbn [find]. rewrite bool_decide_eq_false_2; [done|].
    intros ->. cbn in Hshort. lia. }
  cbn. by rewrite Hempty.
Qed.

End ContactsUpdate_bugs.

(** C5 does not hold on the code: an update that renames the stored contact,
    sent under the contact's id or under its fingerprint, is matched and
    completes, and the contacts are what they were; the name stays "Old". *)
Theorem contactsUpdate_drops_update_fields (jidDecode : string → option DecodedJid.t)
    (md5Base64 : string → string) (config : Config.t) :
  contactsUpdateLoop jidDecode md5Base64 config
    [renameUpdate "1234567890@s.whatsapp.net"] knownContacts
  = (Normal, knownContacts)
  ∧ contactsUpdateLoop sampleJidDecode sampleMd5Base64 config
      [renameUpdate "q2F"] knownContacts
    = (Normal, knownContacts)
  ∧ prop "name" (Contact.fields (renameUpdate "1234567890@s.whatsapp.net")) = VStr "New"
  ∧ (prop "name" ∘ Contact.fields) <$> JsObject.get "1234567890@s.whatsapp.net" knownContacts
    = Some (VStr "Old").
Proof. repeat split; reflexivity. Qed.

(** C6 does not hold on the code: after an entry that matches nothing the
    handler returns (or throws, when a stored id does not decode), and the
    entry behind it, which alone would delete imgUrl, is never applied. *)
Theorem contactsUpdate_unmatched_ends_batch (jidDecode : string → option DecodedJid.t)
    (md5Base64 : string → string) (config : Config.t) :
  (contactsUpdateLoop jidDecode md5Base64 config
     [renameUpdate "unknown-contact";
      imgUrlUpdate "1234567890@s.whatsapp.net" "removed"] knownContacts).2
  = knownContacts
  ∧ (contactsUpdateLoop jidDecode md5Base64 config
       [renameUpdate "unknown-contact";
        imgUrlUpdate "1234567890@s.whatsapp.net" "removed"] knownContacts).1
    ≠ Normal
  ∧ contactsUpdateLoop jidDecode md5Base64 config
      [imgUrlUpdate "1234567890@s.whatsapp.net" "removed"] knownContacts
    = (Normal, [("1234567890@s.whatsapp.net"%string, deleteImgUrl storedContact)])
  ∧ deleteImgUrl storedContact ≠ storedContact.
Proof.
  assert (∀ rest,
            contactsUpdateLoop jidDecode md5Base64 config
              (renameUpdate "unknown-contact" :: rest) knownContacts
            = (Throw, knownContacts)
            ∨ contactsUpdateLoop jidDecode md5Base64 config
                (renameUpdate "unknown-contact" :: rest) knownContacts
              = (Return, knownContacts)) as Hstop.
  { intros rest. cbn [contactsUpdateLoop]. unfold contactsUpdateOne.
    destruct (findContact_long_id jidDecode md5Base64
                (renameUpdate "unknown-contact") knownContacts) as [->| ->];
      [reflexivity|reflexivity|cbn; lia|by left|by right]. }
  split; [|split; [|split]].
  - by destruct (Hstop [imgUrlUpdate "1234567890@s.whatsapp.net" "removed"]) as [->| ->].
  - by destruct (Hstop [imgUrlUpdate "1234567890@s.whatsapp.net" "removed"]) as [->| ->].
  - reflexivity.
  - intros Heq. apply (f_equal (λ c, Contact.fields c !! "imgUrl"%string)) in Heq.
    by vm_compute in Heq.
Qed.

(** ** messages.upsert *)

Section MessagesUpsert_facts.
Variable localeCompare : string → string → comparison.
Variable jidDecode : string → option DecodedJid.t.
Variable config : Config.t.

Lemma messagesUpsertOne_messages (type : string) (s : Store) (msg : WAMessage.t) :
  messages (messagesUpsertOne localeCompare jidDecode config type s msg)
  = upsertMessage (objectToString (jidDecode (MessageKey.remoteJid (WAMessage.key msg))))
      msg Append (messages s).
Proof.
  unfold messagesUpsertOne. destruct (bool_decide _); [|done].
  by destruct (KeyedDB.get _ _ _).
Qed.

(** The handler writes to no list but those of the keys "[object Object]"
    and "undefined". *)
Lemma onMessagesUpsert_other_lists (newMessages : list WAMessage.t) (type : string)
    (s : Store) (jid : string) :
  jid ≠ "[object Object]"%string → jid ≠ "undefined"%string →
  messages (onMessagesUpsert localeCompare jidDecode config newMessages type s) !! jid
  = messages s !! jid.
Proof.
  intros Hobj Hundef. unfold onMessagesUpsert. destruct (_ || _); [|done].
  revert s. induction newMessages as [|msg rest IH]; intros s; cbn [foldl]; [done|].
  rewrite IH, messagesUpsertOne_messages, upsertMessage_lookup.
  rewrite decide_False; [done|].
  unfold objectToString. by destruct (jidDecode _).
Qed.

End MessagesUpsert_facts.

(** C4 does not hold on the code: a message that messaging-history.set puts
    in the list of "123@s.whatsapp.net" and a message of the same chat that
    messages.upsert delivers end up in two lists, the second under the key
    that the decoded object gives. *)
Theorem messagesUpsert_uses_other_list (localeCompare : string → string → comparison)
    (jidDecode : string → option DecodedJid.t)
    (config : Config.t) :
  let s1 :=
    onMessagingHistorySet localeCompare config [] []
      [sampleMessage "123@s.whatsapp.net" "m1" "hello"] false initialStore in
  let s2 :=
    onMessagesUpsert localeCompare jidDecode config
      [sampleMessage "123@s.whatsapp.net" "m2" "world"] "append" s1 in
  messages s2 !! "123@s.whatsapp.net"%string
  = Some [sampleMessage "123@s.whatsapp.net" "m1" "hello"]
  ∧ messages s2 !! objectToString (jidDecode "123@s.whatsapp.net")
    = Some [sampleMessage "123@s.whatsapp.net" "m2" "world"]
  ∧ objectToString (jidDecode "123@s.whatsapp.net") ≠ "123@s.whatsapp.net"%string.
Proof.
  intros s1 s2.
  assert (objectToString (jidDecode "123@s.whatsapp.net") ≠ "123@s.whatsapp.net"%string)
    as Hne by (unfold objectToString; by destruct (jidDecode _)).
  split; [|split; [|done]].
  - subst s2. rewrite onMessagesUpsert_other_lists by done. reflexivity.
  - subst s2. unfold onMessagesUpsert.
    rewrite (bool_decide_eq_true_2 ("append"%string = "append"%string)) by done.
    cbn [orb foldl].
    rewrite messagesUpsertOne_messages, upsertMessage_lookup, decide_True by done.
    cbn [sampleMessage WAMessage.key MessageKey.remoteJid].
    assert (messages s1 !! objectToString (jidDecode "123@s.whatsapp.net") = None) as ->.
    { subst s1. cbn. unfold prependMessage.
      rewrite upsertMessage_lookup, decide_False by done. apply lookup_empty. }
    reflexivity.
Qed.

(** * Further properties of the handlers *)

(** ** contactsUpsert *)

Section JsObject_keys.
Context {V : Type}.
Implicit Types (o : list (string * V)) (k : string) (v : V).

Lemma JsObject_keys_set_known k v o :
  is_Some (JsObject.get k o) → JsObject.keys (JsObject.set k v o) = JsObject.keys o.
Proof.
  unfold JsObject.keys.
  induction o as [|[k0 v0] o IH]; cbn [JsObject.get JsObject.set]; intros Hsome.
  - by destruct Hsome.
  - destruct (decide (k0 = k)) as [->|Hne]; [done|].
    cbn [fmap list_fmap fst]. f_equal. by apply IH.
Qed.

Lemma JsObject_keys_set_new k v o :
  JsObject.get k o = None → JsObject.keys (JsObject.set k v o) = JsObject.keys o ++ [k].
Proof.
  unfold JsObject.keys.
  induction o as [|[k0 v0] o IH]; cbn [JsObject.get JsObject.set]; intros Hnone.
  - done.
  - destruct (decide (k0 = k)) as [->|Hne]; [done|].
    cbn [fmap list_fmap fst app]. f_equal. by apply IH.
Qed.

Lemma JsObject_keys_delete k o :
  JsObject.keys (JsObject.delete k o)
  = List.filter (λ k', negb (bool_decide (k' = k))) (JsObject.keys o).
Proof.
  unfold JsObject.keys.
  induction o as [|[k0 v0] o IH]; cbn [JsObject.delete fmap list_fmap fst List.filter].
  - done.
  - destruct (decide (k0 = k)) as [->|Hne].
    + by rewrite bool_decide_eq_true_2.
    + rewrite bool_decide_eq_false_2 by done. cbn [negb fmap list_fmap fst].
      f_equal. apply IH.
Qed.

Lemma JsObject_NoDup_set k v o :
  NoDup (JsObject.keys o) → NoDup (JsObject.keys (JsObject.set k v o)).
Proof.
  intros Hnodup. destruct (JsObject.get k o) as [v0|] eqn:Hget.
  - by rewrite JsObject_keys_set_known.
  - rewrite JsObject_keys_set_new by done. apply NoDup_app.
    split; [done|]. split; [|apply NoDup_singleton].
    intros k' Hin ->%list_elem_of_singleton. by apply JsObject_get_None in Hget.
Qed.

Lemma JsObject_NoDup_delete k o :
  NoDup (JsObject.keys o) → NoDup (JsObject.keys (JsObject.delete k o)).
Proof.
  intros Hnodup. rewrite JsObject_keys_delete.
  by apply NoDup_ListNoDup, List.NoDup_filter, NoDup_ListNoDup.
Qed.

End JsObject_keys.

Lemma keepsFields_refl (c : Contact.t) : keepsFields c c.
Proof. by intros f. Qed.

Lemma keepsFields_trans (a b c : Contact.t) :
  keepsFields a b → keepsFields b c → keepsFields a c.
Proof. intros Hab Hbc f Hf. by apply Hbc, Hab. Qed.

Lemma spreadContact_keeps (old contact : Contact.t) :
  keepsFields old (spreadContact (Some old) contact).
Proof.
  intros f [v Hv]. cbn. unfold assign. rewrite lookup_union.
  rewrite Hv. by destruct (Contact.fields contact !! f).
Qed.

Lemma spreadContact_wins (old : option Contact.t) (contact : Contact.t) (f : string) (v : val) :
  Contact.fields contact !! f = Some v →
  Contact.fields (spreadContact old contact) !! f = Some v.
Proof.
  intros Hv. destruct old as [o|]; [|done].
  cbn. unfold assign. by apply lookup_union_Some_l.
Qed.

(** No contact and no field is lost in the loop of [contactsUpsert]. *)
Lemma contactsUpsert_fold_keeps (newContacts : list Contact.t)
    (acc : list (string * Contact.t) * list string) (k : string) (old : Contact.t) :
  JsObject.get k acc.1 = Some old →
  ∃ contact,
    JsObject.get k (foldl contactsUpsertOne acc newContacts).1 = Some contact
    ∧ keepsFields old contact.
Proof.
  revert acc old. induction newContacts as [|c0 rest IH]; intros acc old Hold.
  - exists old. split; [done|apply keepsFields_refl].
  - cbn [foldl]. destruct (decide (Contact.id c0 = k)) as [Heq|Hne].
    + destruct (IH (contactsUpsertOne acc c0) (spreadContact (Some old) c0))
        as (contact & Hget & Hkeeps).
      { cbn [contactsUpsertOne fst]. rewrite JsObject_get_set, decide_True by done.
        by rewrite Heq, Hold. }
      exists contact. split; [done|].
      eapply keepsFields_trans; [apply spreadContact_keeps|done].
    + apply IH. cbn [contactsUpsertOne fst].
      by rewrite JsObject_get_set, decide_False.
Qed.

(** X1: [contactsUpsert] loses nothing and lets the batch win: a contact
    known before is known afterwards with every field it had; it is
    untouched when the batch does not name its id; and every field of the
    last entry of the batch for an id is stored as that entry gives it. *)
Theorem contactsUpsert_merges (newContacts : list Contact.t)
    (cs : list (string * Contact.t)) :
  (∀ k old, JsObject.get k cs = Some old →
     ∃ contact,
       JsObject.get k (contactsUpsert newContacts cs).1 = Some contact
       ∧ keepsFields old contact
       ∧ (k ∉ Contact.id <$> newContacts → contact = old))
  ∧ (∀ before entry after f v,
       newContacts = before ++ entry :: after →
       Contact.id entry ∉ Contact.id <$> after →
       Contact.fields entry !! f = Some v →
       ∃ contact,
         JsObject.get (Contact.id entry) (contactsUpsert newContacts cs).1 = Some contact
         ∧ Contact.id contact = Contact.id entry
         ∧ Contact.fields contact !! f = Some v).
Proof.
  split.
  - intros k old Hold.
    destruct (contactsUpsert_fold_keeps newContacts (cs, JsObject.keys cs) k old Hold)
      as (contact & Hget & Hkeeps).
    exists contact. split; [done|]. split; [done|].
    intros Hnotin.
    destruct (contactsUpsert_fold newContacts (cs, JsObject.keys cs)) as (_ & Hother & _).
    unfold contactsUpsert in Hget. rewrite Hother in Hget by done.
    cbn [fst] in Hget. congruence.
  - intros before entry after f v -> Hlast Hv.
    unfold contactsUpsert. rewrite foldl_app. cbn [foldl].
    set (acc := foldl contactsUpsertOne (cs, JsObject.keys cs) before).
    destruct (contactsUpsert_fold after (contactsUpsertOne acc entry)) as (_ & Hother & _).
    rewrite Hother by done. cbn [contactsUpsertOne fst].
    rewrite JsObject_get_set, decide_True by done.
    eexists. split; [done|]. split; [by destruct (JsObject.get _ _)|].
    by apply spreadContact_wins.
Qed.

Lemma contactsUpsert_merges_witness :
  ∃ contact,
    JsObject.get "1234567890@s.whatsapp.net"
      (contactsUpsert [namedContact "1234567890@s.whatsapp.net" "New"] knownContacts).1
    = Some contact
    ∧ keepsFields storedContact contact.
Proof.
  destruct (proj1 (contactsUpsert_merges
                     [namedContact "1234567890@s.whatsapp.net" "New"] knownContacts)
              "1234567890@s.whatsapp.net" storedContact eq_refl)
    as (contact & Hget & Hkeeps & _).
  by exists contact.
Defined.

(** X2: the set that [contactsUpsert] returns holds exactly the ids that
    were known before the call and that the batch does not name. *)
Theorem contactsUpsert_oldContacts (newContacts : list Contact.t)
    (cs : list (string * Contact.t)) (k : string) :
  k ∈ (contactsUpsert newContacts cs).2
  ↔ is_Some (JsObject.get k cs) ∧ k ∉ Contact.id <$> newContacts.
Proof.
  destruct (contactsUpsert_fold newContacts (cs, JsObject.keys cs)) as (Hold & _).
  unfold contactsUpsert. rewrite Hold. cbn [snd].
  assert (k ∈ JsObject.keys cs ↔ is_Some (JsObject.get k cs)) as ->; [|done].
  rewrite <- not_eq_None_Some, JsObject_get_None.
  split; [by intros ? ?|]. intros Hnn. by destruct (decide (k ∈ JsObject.keys cs)).
Qed.

(** ** contacts.update *)

Section ContactsUpdate_more.
Variable jidDecode : string → option DecodedJid.t.
Variable md5Base64 : string → string.
Variable config : Config.t.

Lemma contactsUpdateOne_keys (update : Contact.t) (cs : list (string * Contact.t)) :
  JsObject.keys (contactsUpdateOne jidDecode md5Base64 config update cs).2
  = JsObject.keys cs.
Proof.
  unfold contactsUpdateOne.
  destruct (findContact jidDecode md5Base64 update cs) as [[[k contact]|]|] eqn:Hfind;
    [|done|done].
  apply findContact_stored in Hfind.
  set (contact' := applyImgUrl config update contact).
  assert (JsObject.keys (JsObject.set k contact' cs) = JsObject.keys cs) as Hkeys
    by (apply JsObject_keys_set_known; by rewrite Hfind).
  destruct (JsObject.get (Contact.id contact') _) as [target|] eqn:Htarget; cbn [snd].
  - rewrite JsObject_keys_set_known; [done|by rewrite Htarget].
  - done.
Qed.

(** One iteration on well-formed contacts: nothing changes, or the matched
    contact is replaced by the result of the sentinel step. *)
Lemma contactsUpdateOne_lookup (update : Contact.t) (cs : list (string * Contact.t)) :
  contactsWf cs →
  (contactsUpdateOne jidDecode md5Base64 config update cs).2 = cs
  ∨ ∃ k contact,
      JsObject.get k cs = Some contact
      ∧ ∀ k', JsObject.get k' (contactsUpdateOne jidDecode md5Base64 config update cs).2
              = if decide (k = k')
                then Some (applyImgUrl config update contact)
                else JsObject.get k' cs.
Proof.
  intros [_ Hids]. unfold contactsUpdateOne.
  destruct (findContact jidDecode md5Base64 update cs) as [[[k contact]|]|] eqn:Hfind;
    [|by left|by left].
  apply findContact_stored in Hfind. right. exists k, contact. split; [done|].
  pose proof (Hids _ _ Hfind) as Hid.
  pose proof (applyImgUrl_id config update contact) as Hid'.
  set (contact' := applyImgUrl config update contact) in *.
  intros k'. rewrite Hid', Hid, JsObject_get_set, decide_True by done. cbn [snd].
  rewrite !JsObject_get_set. destruct (decide (k = k')); [|done].
  by rewrite assignContact_self.
Qed.

Lemma contactsUpdateOne_wf (update : Contact.t) (cs : list (string * Contact.t)) :
  contactsWf cs → contactsWf (contactsUpdateOne jidDecode md5Base64 config update cs).2.
Proof.
  intros Hwf. split.
  - rewrite contactsUpdateOne_keys. apply Hwf.
  - destruct (contactsUpdateOne_lookup update cs Hwf) as [->|(k & contact & Hget & Hres)];
      [apply Hwf|].
    intros k' c'. rewrite Hres. destruct (decide (k = k')) as [<-|]; [|apply Hwf].
    intros [= <-]. rewrite applyImgUrl_id. by apply Hwf.
Qed.

Lemma contactsUpdateLoop_wf (updates : list Contact.t) (cs : list (string * Contact.t)) :
  contactsWf cs → contactsWf (contactsUpdateLoop jidDecode md5Base64 config updates cs).2.
Proof.
  revert cs. induction updates as [|update rest IH]; intros cs Hwf; [done|].
  cbn [contactsUpdateLoop]. pose proof (contactsUpdateOne_wf update cs Hwf) as Hwf'.
  destruct (contactsUpdateOne jidDecode md5Base64 config update cs) as [[| |] cs'];
    [by apply IH|done|done].
Qed.

End ContactsUpdate_more.

(** X3: contacts.update neither adds nor removes a contact: the ids of the
    contacts and their order of enumeration are the same after the event,
    whatever the batch holds and however the handler ends. *)
Theorem contactsUpdate_keeps_keys (jidDecode : string → option DecodedJid.t)
    (md5Base64 : string → string) (config : Config.t)
    (updates : list Contact.t) (s : Store) :
  JsObject.keys (contacts (onContactsUpdate jidDecode md5Base64 config updates s))
  = JsObject.keys (contacts s).
Proof.
  cbn [onContactsUpdate contacts setContacts]. generalize (contacts s) as cs.
  induction updates as [|update rest IH]; intros cs; [done|].
  cbn [contactsUpdateLoop].
  pose proof (contactsUpdateOne_keys jidDecode md5Base64 config update cs) as Hkeys.
  destruct (contactsUpdateOne jidDecode md5Base64 config update cs) as [[| |] cs'];
    cbn [snd] in *; [by rewrite IH|done|done].
Qed.

(** X4: on contacts that sit under their own ids, a contacts.update batch
    changes no field but imgUrl: every contact is still there with its id
    and with every other field as it was, whatever the updates carry. *)
Theorem contactsUpdate_only_imgUrl (jidDecode : string → option DecodedJid.t)
    (md5Base64 : string → string) (config : Config.t)
    (updates : list Contact.t) (cs : list (string * Contact.t))
    (k : string) (contact : Contact.t) :
  contactsWf cs →
  JsObject.get k cs = Some contact →
  ∃ contact',
    JsObject.get k (contactsUpdateLoop jidDecode md5Base64 config updates cs).2
    = Some contact'
    ∧ Contact.id contact' = Contact.id contact
    ∧ ∀ f, f ≠ "imgUrl"%string →
           Contact.fields contact' !! f = Contact.fields contact !! f.
Proof.
  revert cs contact. induction updates as [|update rest IH]; intros cs contact Hwf Hget.
  - by exists contact.
  - cbn [contactsUpdateLoop].
    pose proof (contactsUpdateOne_wf jidDecode md5Base64 config update cs Hwf) as Hwf'.
    assert (∃ c1,
              JsObject.get k (contactsUpdateOne jidDecode md5Base64 config update cs).2
              = Some c1
              ∧ Contact.id c1 = Contact.id contact
              ∧ ∀ f, f ≠ "imgUrl"%string →
                     Contact.fields c1 !! f = Contact.fields contact !! f)
      as (c1 & Hget1 & Hid1 & Hfields1).
    { destruct (contactsUpdateOne_lookup jidDecode md5Base64 config update cs Hwf)
        as [->|(k0 & c0 & Hget0 & Hres)]; [by exists contact|].
      rewrite Hres. destruct (decide (k0 = k)) as [->|]; [|by exists contact].
      assert (c0 = contact) as -> by congruence.
      eexists. split; [done|]. split; [apply applyImgUrl_id|].
      intros f Hf. by apply applyImgUrl_other_fields. }
    destruct (contactsUpdateOne jidDecode md5Base64 config update cs) as [[| |] cs'];
      cbn [snd] in *; [|by exists c1|by exists c1].
    destruct (IH cs' c1 Hwf' Hget1) as (c2 & Hget2 & Hid2 & Hfields2).
    exists c2. split; [done|]. split; [congruence|].
    intros f Hf. rewrite Hfields2 by done. by apply Hfields1.
Qed.

Lemma knownContacts_wf : contactsWf knownContacts.
Proof.
  split.
  - apply (bool_decide_unpack _). by vm_compute.
  - intros k contact. cbn [knownContacts JsObject.get].
    destruct (decide _) as [<-|]; [|done]. by intros [= <-].
Qed.

Lemma contactsUpdate_only_imgUrl_witness :
  ∃ contact',
    JsObject.get "1234567890@s.whatsapp.net"
      (contactsUpdateLoop sampleJidDecode sampleMd5Base64 defaultConfig
         [renameUpdate "1234567890@s.whatsapp.net";
          imgUrlUpdate "1234567890@s.whatsapp.net" "removed"] knownContacts).2
    = Some contact'
    ∧ Contact.fields contact' !! "name"%string = Some (VStr "Old").
Proof.
  destruct (contactsUpdate_only_imgUrl sampleJidDecode sampleMd5Base64 defaultConfig
              [renameUpdate "1234567890@s.whatsapp.net";
               imgUrlUpdate "1234567890@s.whatsapp.net" "removed"]
              knownContacts "1234567890@s.whatsapp.net" storedContact
              knownContacts_wf eq_refl)
    as (contact' & Hget & _ & Hfields).
  exists contact'. split; [exact Hget|].
  rewrite (Hfields "name"%string); [reflexivity|discriminate].
Defined.

(** ** What the events write to *)

Section Frame_all.
Variable localeCompare : string → string → comparison.
Variable jidDecode : string → option DecodedJid.t.
Variable md5Base64 : string → string.
Variable config : Config.t.

Lemma onMessagesUpsert_untouched (newMessages : list WAMessage.t) (type : string)
    (s : Store) :
  let s' := onMessagesUpsert localeCompare jidDecode config newMessages type s in
  contacts s' = contacts s ∧ groupMetadata s' = groupMetadata s
  ∧ presences s' = presences s ∧ labelAssociations s' = labelAssociations s.
Proof.
  cbn zeta. unfold onMessagesUpsert. destruct (_ || _); [|done].
  revert s. induction newMessages as [|msg rest IH]; intros s; cbn [foldl]; [done|].
  destruct (IH (messagesUpsertOne localeCompare jidDecode config type s msg)) as (-> & -> & -> & ->).
  unfold messagesUpsertOne. destruct (bool_decide _); [|done].
  by destruct (KeyedDB.get _ _ _).
Qed.

(** An event leaves alone every collection that is not among those of its
    kind. *)
Lemma apply_frame (s : Store) (e : Event) (c : Collection) :
  c ∉ mayWrite e → unchanged c s (apply localeCompare jidDecode md5Base64 config s e).
Proof.
  intros Hnot.
  destruct e; destruct c;
    try (exfalso; apply Hnot; cbn [mayWrite];
         repeat (first [apply list_elem_of_here | apply list_elem_of_further]); fail);
    cbn [unchanged apply]; try done;
    try (by destruct update);
    try (unfold onMessagingHistorySet; by destruct isLatest);
    try (unfold onLabelsAssociation; by repeat destruct (bool_decide _));
    try apply onMessagesUpsert_untouched;
    try apply onMessagesUpsert_frame.
Qed.

Lemma run_nil (s : Store) : run localeCompare jidDecode md5Base64 config s [] = s.
Proof. done. Qed.

End Frame_all.

(** X5: every event writes only to the collections of its kind (the
    connection state for connection.update, chats, messages and contacts
    for messaging-history.set, chats and messages for messages.upsert, and
    so on), and no event ever writes to the group metadata, which is empty
    after every sequence of events. *)
Theorem events_write_their_collections (localeCompare : string → string → comparison)
    (jidDecode : string → option DecodedJid.t)
    (md5Base64 : string → string) (config : Config.t) :
  (∀ (s : Store) (e : Event) (c : Collection),
     c ∉ mayWrite e → unchanged c s (apply localeCompare jidDecode md5Base64 config s e))
  ∧ (∀ events : list Event,
       groupMetadata (run localeCompare jidDecode md5Base64 config initialStore events) = ∅).
Proof.
  split; [apply apply_frame|].
  intros events. induction events as [|e events IH] using rev_ind; [done|].
  rewrite run_snoc, <- IH.
  apply (apply_frame localeCompare jidDecode md5Base64 config _ e GroupMetadata).
  destruct e; cbn [mayWrite];
    repeat (apply not_elem_of_cons; split; [discriminate|]); apply not_elem_of_nil.
Qed.

Lemma events_write_their_collections_witness :
  labels (apply sampleLocaleCompare sampleJidDecode sampleMd5Base64 defaultConfig fullStore
            (ChatsUpsert [bareChat "C@s.whatsapp.net" None]))
  = labels fullStore.
Proof.
  apply (proj1 (events_write_their_collections sampleLocaleCompare sampleJidDecode sampleMd5Base64
                  defaultConfig)
           fullStore (ChatsUpsert [bareChat "C@s.whatsapp.net" None]) Labels).
  apply (bool_decide_unpack _). by vm_compute.
Defined.

(** ** The contacts stay well formed *)

Lemma contactsUpsertOne_wf (acc : list (string * Contact.t) * list string)
    (contact : Contact.t) :
  contactsWf acc.1 → contactsWf (contactsUpsertOne acc contact).1.
Proof.
  intros [Hnodup Hids]. cbn [contactsUpsertOne fst]. split.
  - by apply JsObject_NoDup_set.
  - intros k c. rewrite JsObject_get_set.
    destruct (decide _) as [<-|]; [|apply Hids].
    intros [= <-]. by destruct (JsObject.get _ _).
Qed.

Lemma contactsUpsert_wf (newContacts : list Contact.t) (cs : list (string * Contact.t)) :
  contactsWf cs → contactsWf (contactsUpsert newContacts cs).1.
Proof.
  unfold contactsUpsert. change cs with ((cs, JsObject.keys cs).1) at 1.
  generalize (cs, JsObject.keys cs) as acc.
  induction newContacts as [|c0 rest IH]; intros acc Hwf; [done|].
  cbn [foldl]. by apply IH, contactsUpsertOne_wf.
Qed.

Lemma contacts_delete_wf (ks : list string) (cs : list (string * Contact.t)) :
  contactsWf cs → contactsWf (foldl (λ cs jid, JsObject.delete jid cs) cs ks).
Proof.
  revert cs. induction ks as [|k ks IH]; intros cs Hwf; [done|].
  cbn [foldl]. apply IH. destruct Hwf as [Hnodup Hids]. split.
  - by apply JsObject_NoDup_delete.
  - intros k' c. rewrite JsObject_get_delete. destruct (decide _); [done|apply Hids].
Qed.

(** X6: after every sequence of events from the initial store the contacts
    are well formed: no id is stored twice and every contact sits under the
    key that its own id field gives. *)
Theorem contacts_stay_well_formed (localeCompare : string → string → comparison)
    (jidDecode : string → option DecodedJid.t)
    (md5Base64 : string → string) (config : Config.t) (events : list Event) :
  contactsWf (contacts (run localeCompare jidDecode md5Base64 config initialStore events)).
Proof.
  induction events as [|e events IH] using rev_ind.
  - split; [apply NoDup_nil_2|done].
  - rewrite run_snoc.
    set (s := run localeCompare jidDecode md5Base64 config initialStore events) in *.
    destruct (decide (Contacts ∈ mayWrite e)) as [Hin|Hnotin].
    + destruct e; cbn [mayWrite] in Hin;
        try (exfalso; repeat (apply elem_of_cons in Hin as [Hin|Hin]; [discriminate|]);
             by apply elem_of_nil in Hin);
        cbn [apply].
      * unfold onMessagingHistorySet. destruct isLatest;
          cbn [contacts setContacts setChats setMessages].
        -- by apply contacts_delete_wf, contactsUpsert_wf.
        -- by apply contactsUpsert_wf.
      * by apply contactsUpsert_wf.
      * by apply contactsUpdateLoop_wf.
    + pose proof (apply_frame localeCompare jidDecode md5Base64 config s e Contacts Hnotin) as Hsame.
      cbn [unchanged] in Hsame. by rewrite Hsame.
Qed.

(** ** The layout of the sort key *)

Lemma allHex_app (s t : string) : allHex s → allHex t → allHex (s +:+ t).
Proof.
  induction s as [|c s IH]; [done|]. intros [Hc Hs] Ht.
  change (allHex (String c (s +:+ t))). split; [done|by apply IH].
Qed.

Lemma allHex_hexDigits (fuel : nat) (n : Z) (acc : string) :
  allHex acc → allHex (hexDigits fuel n acc).
Proof.
  revert n acc. induction fuel as [|fuel IH]; intros n acc Hacc; [done|].
  cbn [hexDigits].
  assert (allHex (String (hexDigit (n `mod` 16)) acc)) as Hacc'.
  { split; [|done]. exists (n `mod` 16)%Z. split; [|done]. apply Z.mod_pos_bound. lia. }
  destruct (n / 16 =? 0)%Z; [done|by apply IH].
Qed.

Lemma allHex_repeatChar (k : nat) : allHex (repeatChar k "0").
Proof.
  induction k as [|k IH]; [done|]. split; [|done]. exists 0%Z. split; [lia|done].
Qed.

Lemma parseHex_repeatChar (k : nat) : parseHex 0 (repeatChar k "0") = 0%Z.
Proof. induction k as [|k IH]; [done|]. cbn [repeatChar parseHex]. exact IH. Qed.

(** The timestamp field of a key: eight digits that denote the timestamp. *)
Lemma timestampHex_digits (c : Chat.t) (n : Z) :
  Chat.conversationTimestamp c = Some n → (0 < n < 2 ^ 32)%Z →
  allHex (timestampHex c) ∧ String.length (timestampHex c) = 8
  ∧ parseHex 0 (timestampHex c) = n.
Proof.
  intros Hts Hn. unfold timestampHex. rewrite Hts.
  assert (truthyNum (Some n) = true) as ->
    by (cbn; apply negb_true_iff, Z.eqb_neq; lia).
  split; [|split].
  - unfold padStart. apply allHex_app; [apply allHex_repeatChar|].
    unfold toString16. destruct (n <? 0)%Z eqn:Hneg; [apply Z.ltb_lt in Hneg; lia|].
    by apply allHex_hexDigits.
  - by apply padStart_length, toString16_length.
  - unfold padStart. rewrite parseHex_app, parseHex_repeatChar.
    apply toString16_parseHex. lia.
Qed.

Lemma string_app_inj_prefix (p1 p2 s1 s2 : string) :
  String.length p1 = String.length p2 →
  p1 +:+ s1 = p2 +:+ s2 → p1 = p2.
Proof.
  revert p2. induction p1 as [|a p1 IH]; intros [|b p2] Hlen Heq; try done.
  change (String a (p1 +:+ s1) = String b (p2 +:+ s2)) in Heq.
  injection Heq as -> Heq. injection Hlen as Hlen. f_equal. by apply (IH p2).
Qed.

(** X7: the key of a chat with a timestamp between 1 and 2^32 - 1 holds the
    timestamp as exactly eight hexadecimal digits, and the key gives its
    parts back: two such chats with the same key have the same pin bit
    (when the key has one), the same archive bit, the same timestamp and
    the same id. *)
Theorem waChatKey_decodes (localeCompare : string → string → comparison)
    (pin : bool) (c1 c2 : Chat.t) (n1 n2 : Z) :
  Chat.conversationTimestamp c1 = Some n1 → (0 < n1 < 2 ^ 32)%Z →
  Chat.conversationTimestamp c2 = Some n2 → (0 < n2 < 2 ^ 32)%Z →
  (String.length (timestampHex c1) = 8 ∧ allHex (timestampHex c1)
   ∧ parseHex 0 (timestampHex c1) = n1)
  ∧ (key (waChatKey localeCompare pin) c1 = key (waChatKey localeCompare pin) c2 →
     (pin = true → truthyFlag (Chat.pinned c1) = truthyFlag (Chat.pinned c2))
     ∧ truthyFlag (Chat.archived c1) = truthyFlag (Chat.archived c2)
     ∧ n1 = n2
     ∧ Chat.id c1 = Chat.id c2).
Proof.
  intros Hts1 Hn1 Hts2 Hn2.
  destruct (timestampHex_digits c1 n1 Hts1 Hn1) as (Hhex1 & Hlen1 & Hval1).
  destruct (timestampHex_digits c2 n2 Hts2 Hn2) as (Hhex2 & Hlen2 & Hval2).
  split; [done|]. cbn [key waChatKey]. intros Hkey.
  assert (sameTimestampKind c1 c2) as Hkind.
  { right. unfold eightDigitTimestamp. by rewrite Hts1, Hts2. }
  pose proof (waChatKey_prefix_length pin c1 c2 Hkind) as Hplen.
  pose proof (string_app_inj_length _ _ _ _ Hplen Hkey) as Hid.
  pose proof (string_app_inj_prefix _ _ _ _ Hplen Hkey) as Hprefix.
  assert (String.length
            ((if pin then if truthyFlag (Chat.pinned c1) then "1" else "0" else "")
             +:+ (if truthyFlag (Chat.archived c1) then "0" else "1"))%string
          = String.length
            ((if pin then if truthyFlag (Chat.pinned c2) then "1" else "0" else "")
             +:+ (if truthyFlag (Chat.archived c2) then "0" else "1"))%string) as Hblen.
  { rewrite !string_length_app.
    by destruct pin, (truthyFlag (Chat.pinned c1)), (truthyFlag (Chat.pinned c2)),
      (truthyFlag (Chat.archived c1)), (truthyFlag (Chat.archived c2)). }
  pose proof (string_app_inj_length _ _ _ _ Hblen Hprefix) as Hhex.
  pose proof (string_app_inj_prefix _ _ _ _ Hblen Hprefix) as Hbits.
  split; [|split; [|split]].
  - intros ->. revert Hbits.
    by destruct (truthyFlag (Chat.pinned c1)), (truthyFlag (Chat.pinned c2)).
  - revert Hbits.
    by destruct pin, (truthyFlag (Chat.pinned c1)), (truthyFlag (Chat.pinned c2)),
      (truthyFlag (Chat.archived c1)), (truthyFlag (Chat.archived c2)).
  - by rewrite <- Hval1, <- Hval2, Hhex.
  - done.
Qed.

Lemma waChatKey_decodes_witness :
  truthyFlag (Chat.archived (flaggedChat "a@s.whatsapp.net" true false 1700000000))
  = truthyFlag (Chat.archived
                  (setUnreadCount 4 (flaggedChat "a@s.whatsapp.net" true false 1700000000))).
Proof.
  apply (proj2 (waChatKey_decodes sampleLocaleCompare true
                  (flaggedChat "a@s.whatsapp.net" true false 1700000000)
                  (setUnreadCount 4 (flaggedChat "a@s.whatsapp.net" true false 1700000000))
                  1700000000 1700000000 eq_refl ltac:(split; reflexivity)
                  eq_refl ltac:(split; reflexivity))).
  reflexivity.
Defined.

(** ** labels.edit with the deleted flag *)

(** X8: a labels.edit with the deleted flag removes the label of that id
    whatever the count is, and thereby makes room: with at most twenty
    labels stored, deleting a stored label and then editing any label
    without the flag stores that label. *)
Theorem labelsEdit_delete_makes_room (gone new : Label.t) (s : Store) :
  Label.deleted gone = true →
  Label.deleted new = false →
  ObjectRepository.count (labels s) ≤ 20 →
  is_Some (labels s !! Label.id gone) →
  labels (onLabelsEdit gone s) = delete (Label.id gone) (labels s)
  ∧ labels (onLabelsEdit new (onLabelsEdit gone s))
    = <[Label.id new := new]> (delete (Label.id gone) (labels s)).
Proof.
  intros Hgone Hnew Hcount [l Hl]. unfold ObjectRepository.count in Hcount.
  cbn [onLabelsEdit labels setLabels].
  assert (labelsEdit gone (labels s) = delete (Label.id gone) (labels s)) as ->
    by (unfold labelsEdit; by rewrite Hgone).
  split; [done|]. unfold labelsEdit, ObjectRepository.count. rewrite Hnew.
  assert (size (delete (Label.id gone) (labels s)) < 20) as Hlt.
  { rewrite map_size_delete, Hl. cbn.
    assert (size (labels s) ≠ 0); [|lia].
    intros Hzero%map_size_empty_inv. by rewrite Hzero, lookup_empty in Hl. }
  rewrite (proj2 (Nat.ltb_lt _ _) Hlt). by rewrite upsertById_below_capacity.
Qed.

Lemma labelsEdit_delete_makes_room_witness :
  labels (onLabelsEdit (sampleLabel 25) (onLabelsEdit deletedLabel fullStore))
  !! Label.id (sampleLabel 25)
  = Some (sampleLabel 25).
Proof.
  rewrite (proj2 (labelsEdit_delete_makes_room deletedLabel (sampleLabel 25) fullStore
                    eq_refl eq_refl
                    ltac:(vm_compute; lia)
                    ltac:(exists (sampleLabel 0); vm_compute; reflexivity))).
  apply lookup_insert_eq.
Defined.

(** ** presence.update *)

(** X9: presence.update is additive: in the chat of the event a participant
    that the update names gets the update's data and every other
    participant keeps its own; the other chats are untouched; so no
    participant that was known is ever dropped. *)
Theorem presenceUpdate_additive (id : string) (update : gmap string obj) (s : Store)
    (chat participant : string) :
  presenceOf chat participant (onPresenceUpdate id update s)
  = (if decide (chat = id)
     then match update !! participant with
          | Some data => Some data
          | None => presenceOf chat participant s
          end
     else presenceOf chat participant s)
  ∧ (is_Some (presenceOf chat participant s) →
     is_Some (presenceOf chat participant (onPresenceUpdate id update s))).
Proof.
  assert (presenceOf chat participant (onPresenceUpdate id update s)
          = if decide (chat = id)
            then match update !! participant with
                 | Some data => Some data
                 | None => presenceOf chat participant s
                 end
            else presenceOf chat participant s) as Heq.
  { unfold presenceOf. cbn [onPresenceUpdate presences setPresences].
    destruct (decide (chat = id)) as [->|Hne].
    - rewrite lookup_insert_eq. cbn. rewrite lookup_union.
      destruct (update !! participant) as [data|] eqn:Hdata.
      + by destruct (default ∅ (presences s !! id) !! participant).
      + destruct (presences s !! id) as [m|]; cbn; [by destruct (m !! participant)|].
        by rewrite lookup_empty.
    - by rewrite lookup_insert_ne. }
  split; [done|]. rewrite Heq. intros Hsome.
  destruct (decide (chat = id)); [|done]. by destruct (update !! participant).
Qed.

Lemma presenceUpdate_additive_witness :
  is_Some (presenceOf "g@g.us" "a@s.whatsapp.net"
             (onPresenceUpdate "g@g.us" {[ "b@s.whatsapp.net"%string := ∅ ]}
                (onPresenceUpdate "g@g.us" {[ "a@s.whatsapp.net"%string := ∅ ]}
                   initialStore))).
Proof.
  apply (proj2 (presenceUpdate_additive "g@g.us" {[ "b@s.whatsapp.net"%string := ∅ ]}
                  (onPresenceUpdate "g@g.us" {[ "a@s.whatsapp.net"%string := ∅ ]}
                     initialStore)
                  "g@g.us" "a@s.whatsapp.net")).
  exists ∅. by vm_compute.
Defined.

(** ** connection.update, composed *)

(** X10: connection.update is idempotent, and two updates in a row leave
    the state that the single update with the second payload written over
    the first leaves. *)
Theorem connectionUpdate_composes (u1 u2 : obj) (s : Store) :
  onConnectionUpdate (Some u1) (onConnectionUpdate (Some u1) s)
  = onConnectionUpdate (Some u1) s
  ∧ onConnectionUpdate (Some u2) (onConnectionUpdate (Some u1) s)
    = onConnectionUpdate (Some (assign u1 u2)) s.
Proof.
  unfold onConnectionUpdate, setState, assign. cbn [state chats messages contacts
    groupMetadata presences labels labelAssociations].
  split; f_equal.
  - by rewrite (assoc_L (∪)), (idemp_L (∪)).
  - by rewrite (assoc_L (∪)).
Qed.

(** ** chats.delete *)

Section KeyedDB_delete.
Context {T : Type} (idGetter : T → string).

Lemma KeyedDB_deleteById_absent (id : string) (db : list T) :
  KeyedDB.get idGetter id db = None → KeyedDB.deleteById idGetter id db = db.
Proof.
  unfold KeyedDB.get, KeyedDB.deleteById.
  induction db as [|w db IH]; cbn [List.find List.filter]; [done|].
  destruct (KeyedDB.hasId idGetter id w); [done|]. intros Hnone.
  cbn [negb]. by rewrite IH.
Qed.

Lemma KeyedDB_deleteById_filter (id : string) (ids : list string) (db : list T) :
  List.filter (λ v, negb (bool_decide (idGetter v ∈ ids)))
    (KeyedDB.deleteById idGetter id db)
  = List.filter (λ v, negb (bool_decide (idGetter v ∈ id :: ids))) db.
Proof.
  unfold KeyedDB.deleteById, KeyedDB.hasId.
  induction db as [|w db IH]; cbn [List.filter]; [done|].
  destruct (decide (idGetter w = id)) as [Heq|Hne].
  - rewrite (bool_decide_eq_true_2 (idGetter w = id)) by done. cbn [negb].
    rewrite (bool_decide_eq_true_2 (idGetter w ∈ id :: ids)) by (rewrite Heq; by left).
    exact IH.
  - rewrite (bool_decide_eq_false_2 (idGetter w = id)) by done. cbn [negb List.filter].
    rewrite IH.
    destruct (decide (idGetter w ∈ ids)) as [Hin|Hnotin].
    + rewrite !bool_decide_eq_true_2; [done|by right|done].
    + rewrite !bool_decide_eq_false_2; [done| |done].
      rewrite elem_of_cons. by intros [?|?].
Qed.

End KeyedDB_delete.

(** X11: chats.delete removes exactly the chats whose id is in the list,
    ignores the ids that name no chat, and keeps the other chats in their
    order. *)
Theorem chatsDelete_removes_listed (deletions : list string) (s : Store) :
  chats (onChatsDelete deletions s)
  = List.filter (λ c, negb (bool_decide (Chat.id c ∈ deletions))) (chats s).
Proof.
  cbn [onChatsDelete chats setChats]. generalize (chats s) as db.
  induction deletions as [|item rest IH]; intros db; cbn [foldl].
  - induction db as [|c db IHdb]; [done|]. cbn [List.filter].
    rewrite bool_decide_eq_false_2 by apply not_elem_of_nil. cbn [negb]. by f_equal.
  - rewrite IH, <- KeyedDB_deleteById_filter.
    destruct (KeyedDB.get Chat.id item db) eqn:Hget; [done|].
    by rewrite KeyedDB_deleteById_absent.
Qed.

(** ** labels.association *)

Section KeyedDB_upsert.
Context {T : Type} (cmp : Comparable T) (idGetter : T → string).

Lemma KeyedDB_get_upsert_one (v : T) (id : string) (db : list T) :
  KeyedDB.get idGetter id (KeyedDB.upsert cmp idGetter [v] db)
  = if decide (idGetter v = id) then Some v else KeyedDB.get idGetter id db.
Proof.
  cbn [KeyedDB.upsert foldl]. destruct (decide (idGetter v = id)) as [<-|Hne].
  - apply KeyedDB_get_insertSorted_eq, KeyedDB_get_deleteById_eq.
  - rewrite KeyedDB_get_insertSorted_ne by done. by apply KeyedDB_get_deleteById_ne.
Qed.

Lemma KeyedDB_get_delete (v : T) (id : string) (db : list T) :
  KeyedDB.get idGetter id (KeyedDB.delete idGetter v db)
  = if decide (idGetter v = id) then None else KeyedDB.get idGetter id db.
Proof.
  unfold KeyedDB.delete. destruct (decide (idGetter v = id)) as [<-|Hne].
  - apply KeyedDB_get_deleteById_eq.
  - by apply KeyedDB_get_deleteById_ne.
Qed.

End KeyedDB_upsert.

(** X12: labels.association with type 'add' stores the row under its
    composite key and leaves the rows of other keys alone; 'remove' takes
    the row of that key away and leaves the others; any other type changes
    nothing. *)
Theorem labelsAssociation_add_remove (localeCompare : string → string → comparison)
    (config : Config.t)
    (association : LabelAssociation.t) (s : Store) (k : string) :
  let rowKey := key (labelAssociationKey localeCompare config) in
  KeyedDB.get rowKey k
    (labelAssociations (onLabelsAssociation localeCompare config "add" association s))
  = (if decide (rowKey association = k) then Some association
     else KeyedDB.get rowKey k (labelAssociations s))
  ∧ KeyedDB.get rowKey k
      (labelAssociations (onLabelsAssociation localeCompare config "remove" association s))
    = (if decide (rowKey association = k) then None
       else KeyedDB.get rowKey k (labelAssociations s))
  ∧ (∀ type, type ≠ "add"%string → type ≠ "remove"%string →
             onLabelsAssociation localeCompare config type association s = s).
Proof.
  intros rowKey. split; [|split].
  - apply KeyedDB_get_upsert_one.
  - apply KeyedDB_get_delete.
  - intros type Hadd Hremove. unfold onLabelsAssociation.
    by rewrite !bool_decide_eq_false_2.
Qed.

Lemma labelsAssociation_add_remove_witness :
  onLabelsAssociation sampleLocaleCompare defaultConfig "toggle" (chatAssociation "c@g.us" "7") initialStore
  = initialStore.
Proof.
  apply (proj2 (proj2 (labelsAssociation_add_remove sampleLocaleCompare defaultConfig
                         (chatAssociation "c@g.us" "7") initialStore ""))
           "toggle"%string); discriminate.
Defined.

(** X13: the composite key of [waLabelAssociationKey] tells the labels of
    one chat apart, and the labels of one message of a chat: two chat rows
    of one chat, or two message rows of one chat and message, with
    different labels have different keys. *)
Theorem waLabelAssociationKey_labels (localeCompare : string → string → comparison)
    (a b : LabelAssociation.t) :
  LabelAssociation.type_ a = LabelAssociation.type_ b →
  LabelAssociation.chatId a = LabelAssociation.chatId b →
  (LabelAssociation.type_ a = LabelAssociation.Message →
   LabelAssociation.messageId a = LabelAssociation.messageId b) →
  LabelAssociation.labelId a ≠ LabelAssociation.labelId b →
  key (waLabelAssociationKey localeCompare) a ≠ key (waLabelAssociationKey localeCompare) b.
Proof.
  intros Htype Hchat Hmsg Hlabel. cbn [key waLabelAssociationKey].
  rewrite <- Htype, <- Hchat. destruct (LabelAssociation.type_ a).
  - by intros ?%(inj (String.app _)).
  - rewrite <- Hmsg by done. rewrite !string_app_assoc.
    by intros ?%(inj (String.app _))%(inj (String.app _)).
Qed.

Lemma waLabelAssociationKey_labels_witness :
  key (waLabelAssociationKey sampleLocaleCompare) (chatAssociation "c@g.us" "7")
  ≠ key (waLabelAssociationKey sampleLocaleCompare) (chatAssociation "c@g.us" "8").
Proof.
  apply (waLabelAssociationKey_labels sampleLocaleCompare (chatAssociation "c@g.us" "7")
           (chatAssociation "c@g.us" "8") eq_refl eq_refl); discriminate.
Defined.

(** ** Unique ids in the chats *)

Section KeyedDB_unique.
Context {T : Type} (cmp : Comparable T) (idGetter : T → string).

Lemma KeyedDB_get_None (id : string) (db : list T) :
  KeyedDB.get idGetter id db = None ↔ id ∉ idGetter <$> db.
Proof.
  unfold KeyedDB.get. induction db as [|w db IH]; cbn [List.find fmap list_fmap].
  - split; [intros _; apply not_elem_of_nil|done].
  - rewrite not_elem_of_cons. unfold KeyedDB.hasId at 1.
    destruct (decide (idGetter w = id)) as [Heq|Hne].
    + rewrite bool_decide_eq_true_2 by done. split; [done|]. by intros [? _].
    + rewrite bool_decide_eq_false_2 by done. rewrite IH.
      split; [by split|by intros [_ ?]].
Qed.

Lemma KeyedDB_ids_insertSorted (v : T) (db : list T) :
  idGetter <$> KeyedDB.insertSorted cmp v db ≡ₚ idGetter v :: (idGetter <$> db).
Proof.
  induction db as [|w db IH]; cbn [KeyedDB.insertSorted]; [done|].
  destruct (compare cmp (key cmp v) (key cmp w)); try done.
  cbn [fmap list_fmap]. rewrite IH. apply Permutation_swap.
Qed.

Lemma KeyedDB_ids_deleteById (id x : string) (db : list T) :
  x ∈ idGetter <$> KeyedDB.deleteById idGetter id db → x ∈ idGetter <$> db.
Proof.
  unfold KeyedDB.deleteById.
  induction db as [|w db IH]; cbn [List.filter fmap list_fmap]; [done|].
  destruct (negb (KeyedDB.hasId idGetter id w)); cbn [fmap list_fmap].
  - intros [->|Hin]%elem_of_cons; [by left|right; by apply IH].
  - intros Hin. right. by apply IH.
Qed.

Lemma KeyedDB_NoDup_deleteById (id : string) (db : list T) :
  NoDup (idGetter <$> db) → NoDup (idGetter <$> KeyedDB.deleteById idGetter id db).
Proof.
  unfold KeyedDB.deleteById.
  induction db as [|w db IH]; cbn [List.filter fmap list_fmap]; [done|].
  intros [Hnotin Hnodup]%NoDup_cons.
  destruct (negb (KeyedDB.hasId idGetter id w)); cbn [fmap list_fmap]; [|by apply IH].
  apply NoDup_cons. split; [|by apply IH].
  intros Hin. by apply Hnotin, (KeyedDB_ids_deleteById id).
Qed.

Lemma KeyedDB_NoDup_insertSorted (v : T) (db : list T) :
  KeyedDB.get idGetter (idGetter v) db = None →
  NoDup (idGetter <$> db) →
  NoDup (idGetter <$> KeyedDB.insertSorted cmp v db).
Proof.
  intros Hnone%KeyedDB_get_None Hnodup. rewrite KeyedDB_ids_insertSorted.
  by apply NoDup_cons.
Qed.

Lemma KeyedDB_NoDup_upsert (values db : list T) :
  NoDup (idGetter <$> db) → NoDup (idGetter <$> KeyedDB.upsert cmp idGetter values db).
Proof.
  unfold KeyedDB.upsert. revert db.
  induction values as [|v values IH]; intros db Hnodup; [done|].
  cbn [foldl]. apply IH, KeyedDB_NoDup_insertSorted.
  - apply KeyedDB_get_deleteById_eq.
  - by apply KeyedDB_NoDup_deleteById.
Qed.

Lemma KeyedDB_NoDup_insertIfAbsent (values db : list T) :
  NoDup (idGetter <$> db) →
  NoDup (idGetter <$> (KeyedDB.insertIfAbsent cmp idGetter values db).2).
Proof.
  unfold KeyedDB.insertIfAbsent. change db with (([] : list T, db).2) at 1.
  generalize ([] : list T, db) as acc.
  induction values as [|v values IH]; intros acc Hnodup; [done|].
  cbn [foldl]. apply IH. unfold KeyedDB.insertOneIfAbsent.
  destruct (KeyedDB.get idGetter (idGetter v) acc.2) eqn:Hget; [done|].
  by apply KeyedDB_NoDup_insertSorted.
Qed.

Lemma KeyedDB_NoDup_update (id : string) (mutator : T → T) (db db' : list T) :
  (∀ v, idGetter v = id → idGetter (mutator v) = id) →
  KeyedDB.update cmp idGetter id mutator db = Some db' →
  NoDup (idGetter <$> db) → NoDup (idGetter <$> db').
Proof.
  intros Hid. unfold KeyedDB.update.
  destruct (KeyedDB.get idGetter id db) as [v|] eqn:Hget; [|done].
  intros [= <-] Hnodup. apply KeyedDB_get_Some in Hget as [_ Hv].
  apply KeyedDB_NoDup_insertSorted; [|by apply KeyedDB_NoDup_deleteById].
  rewrite (Hid v Hv). apply KeyedDB_get_deleteById_eq.
Qed.

End KeyedDB_unique.

Section Chats_unique.
Variable localeCompare : string → string → comparison.
Variable jidDecode : string → option DecodedJid.t.
Variable md5Base64 : string → string.
Variable config : Config.t.

Lemma chatsUpdateOne_NoDup (db : list Chat.t) (update : Chat.t) :
  NoDup (Chat.id <$> db) → NoDup (Chat.id <$> chatsUpdateOne localeCompare config db update).
Proof.
  intros Hnodup. unfold chatsUpdateOne.
  destruct (KeyedDB.update _ _ _ _ _) as [db'|] eqn:Hupdate; [|done].
  eapply KeyedDB_NoDup_update; [|done..]. intros v _. apply chatMutator_id.
Qed.

Lemma messagesUpsertOne_chats_NoDup (type : string) (s : Store) (msg : WAMessage.t) :
  NoDup (Chat.id <$> chats s) →
  NoDup (Chat.id <$> chats (messagesUpsertOne localeCompare jidDecode config type s msg)).
Proof.
  intros Hnodup. unfold messagesUpsertOne. destruct (bool_decide _); [|done].
  destruct (KeyedDB.get _ _ _); [done|].
  cbn [onChatsUpsert chats setChats setMessages]. by apply KeyedDB_NoDup_upsert.
Qed.

Lemma apply_chats_NoDup (s : Store) (e : Event) :
  NoDup (Chat.id <$> chats s) →
  NoDup (Chat.id <$> chats (apply localeCompare jidDecode md5Base64 config s e)).
Proof.
  intros Hnodup.
  destruct (decide (Chats ∈ mayWrite e)) as [Hin|Hnotin].
  2:{ pose proof (apply_frame localeCompare jidDecode md5Base64 config s e Chats Hnotin) as Hsame.
      cbn [unchanged] in Hsame. by rewrite Hsame. }
  destruct e; cbn [mayWrite] in Hin;
    try (exfalso; repeat (apply elem_of_cons in Hin as [Hin|Hin]; [discriminate|]);
         by apply elem_of_nil in Hin);
    clear Hin; cbn [apply].
  - unfold onMessagingHistorySet. destruct isLatest;
      cbn [chats setContacts setChats setMessages KeyedDB.clear];
      apply KeyedDB_NoDup_insertIfAbsent; [apply NoDup_nil_2|done].
  - by apply KeyedDB_NoDup_upsert.
  - cbn [onChatsUpdate chats setChats]. revert Hnodup. generalize (chats s) as db.
    induction updates as [|update rest IH]; intros db Hnodup; [done|].
    cbn [foldl]. by apply IH, chatsUpdateOne_NoDup.
  - cbn [onChatsDelete chats setChats]. revert Hnodup. generalize (chats s) as db.
    induction deletions as [|item rest IH]; intros db Hnodup; [done|].
    cbn [foldl]. apply IH. destruct (KeyedDB.get _ _ _); [|done].
    by apply KeyedDB_NoDup_deleteById.
  - unfold onMessagesUpsert. destruct (_ || _); [|done].
    revert s Hnodup. induction newMessages as [|msg rest IH]; intros s Hnodup; [done|].
    cbn [foldl]. by apply IH, messagesUpsertOne_chats_NoDup.
Qed.

End Chats_unique.

(** X14: after every sequence of events from the initial store no two
    chats of the collection have the same id, whatever comparator and key
    the configuration gives. *)
Theorem chat_ids_stay_unique (localeCompare : string → string → comparison)
    (jidDecode : string → option DecodedJid.t)
    (md5Base64 : string → string) (config : Config.t) (events : list Event) :
  NoDup (Chat.id <$> chats (run localeCompare jidDecode md5Base64 config initialStore events)).
Proof.
  induction events as [|e events IH] using rev_ind; [apply NoDup_nil_2|].
  rewrite run_snoc. by apply apply_chats_NoDup.
Qed.

(** ** Unique ids in the lists of messages *)

Section OrderedDictionary_unique.
Context {T : Type} (idGetter : T → string).

Lemma OrderedDictionary_ids_replace (item : T) (d : list T) :
  idGetter <$> OrderedDictionary.replace idGetter item d = idGetter <$> d.
Proof.
  unfold OrderedDictionary.replace.
  induction d as [|x d IH]; cbn [List.map fmap list_fmap]; [done|].
  f_equal; [|exact IH].
  destruct (bool_decide (idGetter x = idGetter item)) eqn:Hx; [|done].
  by apply bool_decide_eq_true_1 in Hx.
Qed.

Lemma OrderedDictionary_NoDup_upsert (item : T) (mode : Direction) (d : list T) :
  NoDup (idGetter <$> d) → NoDup (idGetter <$> OrderedDictionary.upsert idGetter item mode d).
Proof.
  intros Hnodup. unfold OrderedDictionary.upsert.
  destruct (OrderedDictionary.get idGetter (idGetter item) d) eqn:Hget.
  - by rewrite OrderedDictionary_ids_replace.
  - apply (KeyedDB_get_None idGetter) in Hget. destruct mode.
    + rewrite fmap_app. apply NoDup_app. split; [done|].
      split; [|apply NoDup_singleton].
      by intros x Hx ->%list_elem_of_singleton.
    + by apply NoDup_cons.
Qed.

End OrderedDictionary_unique.

Lemma upsertMessage_unique (jid : string) (msg : WAMessage.t) (mode : Direction)
    (msgs : gmap string (list WAMessage.t)) :
  messageIdsUnique msgs → messageIdsUnique (upsertMessage jid msg mode msgs).
Proof.
  intros Hunique jid' l. rewrite upsertMessage_lookup.
  destruct (decide (jid = jid')) as [_|_]; [|apply Hunique].
  intros [= <-]. apply OrderedDictionary_NoDup_upsert.
  destruct (msgs !! jid) as [l0|] eqn:Hl0; [by apply (Hunique jid)|apply NoDup_nil_2].
Qed.

Section Messages_unique.
Variable localeCompare : string → string → comparison.
Variable jidDecode : string → option DecodedJid.t.
Variable md5Base64 : string → string.
Variable config : Config.t.

Lemma apply_messages_unique (s : Store) (e : Event) :
  messageIdsUnique (messages s) →
  messageIdsUnique (messages (apply localeCompare jidDecode md5Base64 config s e)).
Proof.
  intros Hunique.
  destruct (decide (Messages ∈ mayWrite e)) as [Hin|Hnotin].
  2:{ pose proof (apply_frame localeCompare jidDecode md5Base64 config s e Messages Hnotin) as Hsame.
      cbn [unchanged] in Hsame. by rewrite Hsame. }
  destruct e; cbn [mayWrite] in Hin;
    try (exfalso; repeat (apply elem_of_cons in Hin as [Hin|Hin]; [discriminate|]);
         by apply elem_of_nil in Hin);
    clear Hin; cbn [apply].
  - assert (∀ batch msgs, messageIdsUnique msgs →
              messageIdsUnique (foldl prependMessage msgs batch)) as Hfold.
    { induction batch as [|msg batch IH]; intros msgs Hmsgs; [done|].
      cbn [foldl]. by apply IH, upsertMessage_unique. }
    unfold onMessagingHistorySet. destruct isLatest;
      cbn [messages setContacts setChats setMessages]; apply Hfold; [|done].
    rewrite messages_deleted. intros jid l Hl. by apply lookup_empty_Some in Hl.
  - unfold onMessagesUpsert. destruct (_ || _); [|done].
    revert s Hunique. induction newMessages as [|msg rest IH]; intros s Hunique; [done|].
    cbn [foldl]. apply IH. rewrite messagesUpsertOne_messages.
    by apply upsertMessage_unique.
Qed.

End Messages_unique.

(** X15: after every sequence of events from the initial store no list of
    messages holds two messages with the same message id; messages without
    an id count as having the id ''. *)
Theorem message_ids_stay_unique (localeCompare : string → string → comparison)
    (jidDecode : string → option DecodedJid.t)
    (md5Base64 : string → string) (config : Config.t) (events : list Event) :
  messageIdsUnique (messages (run localeCompare jidDecode md5Base64 config initialStore events)).
Proof.
  induction events as [|e events IH] using rev_ind.
  - intros jid l Hl. cbn in Hl. by apply lookup_empty_Some in Hl.
  - rewrite run_snoc. by apply apply_messages_unique.
Qed.

(** ** messaging-history.set without [isLatest] *)

Section History_partial.
Context {T : Type} (cmp : Comparable T) (idGetter : T → string).

Lemma insertIfAbsent_keeps_item (values : list T) (acc : list T * list T)
    (id : string) (v : T) :
  KeyedDB.get idGetter id acc.2 = Some v →
  KeyedDB.get idGetter id (foldl (KeyedDB.insertOneIfAbsent cmp idGetter) acc values).2
  = Some v.
Proof.
  revert acc. induction values as [|v0 values IH]; intros acc Hget; [done|].
  cbn [foldl]. apply IH. unfold KeyedDB.insertOneIfAbsent.
  destruct (KeyedDB.get idGetter (idGetter v0) acc.2) eqn:Hv0; [done|]. cbn [snd].
  rewrite KeyedDB_get_insertSorted_ne; [done|]. intros Heq. congruence.
Qed.

End History_partial.

Lemma prependMessage_other_lists (batch : list WAMessage.t)
    (msgs : gmap string (list WAMessage.t)) (jid : string) :
  jid ∉ (MessageKey.remoteJid ∘ WAMessage.key) <$> batch →
  foldl prependMessage msgs batch !! jid = msgs !! jid.
Proof.
  revert msgs. induction batch as [|msg batch IH]; intros msgs Hnotin; [done|].
  cbn [fmap list_fmap] in Hnotin. apply not_elem_of_cons in Hnotin as [Hne Hnotin].
  cbn [foldl]. rewrite IH by done. unfold prependMessage.
  rewrite upsertMessage_lookup, decide_False; [done|]. intros Heq. by apply Hne.
Qed.

(** X16: a messaging-history.set without [isLatest] drops nothing: a chat
    that was known is still found, unchanged, under its id; a contact that
    was known is still known with every field it had; a message id that a
    list knew is still known to it; and the lists of the chats that the
    batch does not name are as they were. *)
Theorem historySet_partial_keeps (localeCompare : string → string → comparison)
    (config : Config.t) (newChats : list Chat.t)
    (newContacts : list Contact.t) (newMessages : list WAMessage.t) (s : Store) :
  let s' := onMessagingHistorySet localeCompare config newChats newContacts newMessages false s in
  (∀ i c, KeyedDB.get Chat.id i (chats s) = Some c →
          KeyedDB.get Chat.id i (chats s') = Some c)
  ∧ (∀ k old, JsObject.get k (contacts s) = Some old →
       ∃ contact, JsObject.get k (contacts s') = Some contact ∧ keepsFields old contact)
  ∧ (∀ jid mid, knowsMessage jid mid (messages s) → knowsMessage jid mid (messages s'))
  ∧ (∀ jid, jid ∉ (MessageKey.remoteJid ∘ WAMessage.key) <$> newMessages →
            messages s' !! jid = messages s !! jid).
Proof.
  cbn zeta. unfold onMessagingHistorySet.
  cbn [chats messages contacts setChats setMessages setContacts].
  split; [|split; [|split]].
  - intros i c Hget. by apply insertIfAbsent_keeps_item.
  - intros k old Hold. by apply contactsUpsert_fold_keeps.
  - intros jid mid Hknows. by apply prependMessage_keeps.
  - intros jid Hnotin. by apply prependMessage_other_lists.
Qed.

Lemma historySet_partial_keeps_witness :
  KeyedDB.get Chat.id "A@s.whatsapp.net"
    (chats (onMessagingHistorySet sampleLocaleCompare defaultConfig
              [unreadChat "A@s.whatsapp.net" (Some 7%Z)] [] [] false storeAB))
  = Some (bareChat "A@s.whatsapp.net" None).
Proof.
  apply (proj1 (historySet_partial_keeps sampleLocaleCompare defaultConfig
                  [unreadChat "A@s.whatsapp.net" (Some 7%Z)] [] [] storeAB)).
  reflexivity.
Defined.

(** ** messages.upsert and the chats *)

Section MessagesUpsert_chats.
Variable localeCompare : string → string → comparison.
Variable jidDecode : string → option DecodedJid.t.
Variable config : Config.t.

Lemma messagesUpsertOne_notify_chats (s : Store) (msg : WAMessage.t) (i : string) :
  let jid := objectToString (jidDecode (MessageKey.remoteJid (WAMessage.key msg))) in
  KeyedDB.get Chat.id i (chats (messagesUpsertOne localeCompare jidDecode config "notify" s msg))
  = if decide (jid = i)
    then Some (default (placeholderChat jid (MessageKey.remoteJid (WAMessage.key msg)))
                 (KeyedDB.get Chat.id jid (chats s)))
    else KeyedDB.get Chat.id i (chats s).
Proof.
  cbn zeta. unfold messagesUpsertOne.
  rewrite (bool_decide_eq_true_2 ("notify"%string = "notify"%string)) by done.
  cbn [chats setMessages].
  destruct (KeyedDB.get Chat.id _ (chats s)) as [c|] eqn:Hget.
  - cbn [chats setMessages]. destruct (decide _) as [<-|]; [by rewrite Hget|done].
  - cbn [onChatsUpsert chats setChats setMessages].
    rewrite KeyedDB_get_upsert_one. cbn [placeholderChat Chat.id].
    destruct (decide _) as [<-|]; [done|done].
Qed.

End MessagesUpsert_chats.

(** X17: messages.upsert and the chats.  With type 'append' the chats are
    left alone, and with a type other than 'append' and 'notify' the whole
    store is.  With type 'notify' a chat exists afterwards under the key
    that the decoded jid of each message gives ("[object Object]" or
    "undefined"), and the chats of every other id are as they were: no
    chat is created under the remoteJid of a message. *)
Theorem messagesUpsert_chats (localeCompare : string → string → comparison)
    (jidDecode : string → option DecodedJid.t)
    (config : Config.t) (newMessages : list WAMessage.t) (s : Store) :
  chats (onMessagesUpsert localeCompare jidDecode config newMessages "append" s) = chats s
  ∧ (∀ type, type ≠ "append"%string → type ≠ "notify"%string →
             onMessagesUpsert localeCompare jidDecode config newMessages type s = s)
  ∧ (∀ msg, msg ∈ newMessages →
       is_Some (KeyedDB.get Chat.id
                  (objectToString (jidDecode (MessageKey.remoteJid (WAMessage.key msg))))
                  (chats (onMessagesUpsert localeCompare jidDecode config newMessages "notify" s))))
  ∧ (∀ i, i ≠ "[object Object]"%string → i ≠ "undefined"%string →
          KeyedDB.get Chat.id i
            (chats (onMessagesUpsert localeCompare jidDecode config newMessages "notify" s))
          = KeyedDB.get Chat.id i (chats s)).
Proof.
  unfold onMessagesUpsert.
  rewrite (bool_decide_eq_true_2 ("append"%string = "append"%string)) by done.
  rewrite (bool_decide_eq_true_2 ("notify"%string = "notify"%string)) by done.
  rewrite orb_true_r. cbn [orb].
  split; [|split; [|split]].
  - revert s. induction newMessages as [|msg rest IH]; intros s; [done|].
    cbn [foldl]. rewrite IH. unfold messagesUpsertOne.
    by rewrite (bool_decide_eq_false_2 ("append"%string = "notify"%string)).
  - intros type Happend Hnotify. by rewrite !bool_decide_eq_false_2.
  - assert (∀ batch s0 i,
              is_Some (KeyedDB.get Chat.id i (chats s0)) →
              is_Some (KeyedDB.get Chat.id i
                         (chats (foldl (messagesUpsertOne localeCompare jidDecode config "notify")
                                   s0 batch)))) as Hkeeps.
    { induction batch as [|m batch IH]; intros s0 i Hsome; [done|].
      cbn [foldl]. apply IH. rewrite messagesUpsertOne_notify_chats.
      destruct (decide _) as [<-|]; [|done]. by destruct Hsome as [c ->]. }
    revert s. induction newMessages as [|m rest IH]; intros s msg Hin;
      [by apply elem_of_nil in Hin|].
    cbn [foldl]. apply elem_of_cons in Hin as [->|Hin]; [|by apply IH].
    apply Hkeeps. rewrite messagesUpsertOne_notify_chats, decide_True by done.
    by eexists.
  - intros i Hobj Hundef. revert s.
    induction newMessages as [|m rest IH]; intros s; [done|].
    cbn [foldl]. rewrite IH, messagesUpsertOne_notify_chats, decide_False; [done|].
    unfold objectToString. by destruct (jidDecode _).
Qed.

Lemma messagesUpsert_chats_witness :
  is_Some (KeyedDB.get Chat.id "[object Object]"
             (chats (onMessagesUpsert sampleLocaleCompare sampleJidDecode defaultConfig
                       [sampleMessage "123@s.whatsapp.net" "m1" "hello"] "notify"
                       initialStore)))
  ∧ KeyedDB.get Chat.id "123@s.whatsapp.net"
      (chats (onMessagesUpsert sampleLocaleCompare sampleJidDecode defaultConfig
                [sampleMessage "123@s.whatsapp.net" "m1" "hello"] "notify"
                initialStore))
    = None.
Proof.
  pose proof (messagesUpsert_chats sampleLocaleCompare sampleJidDecode defaultConfig
                [sampleMessage "123@s.whatsapp.net" "m1" "hello"] initialStore)
    as (_ & _ & Hcreated & Hothers).
  split.
  - apply (Hcreated (sampleMessage "123@s.whatsapp.net" "m1" "hello")). by left.
  - rewrite Hothers by discriminate. reflexivity.
Defined.

(** ** contacts.update: the lookup by fingerprint *)

Section Fingerprints.
Variable jidDecode : string → option DecodedJid.t.
Variable md5Base64 : string → string.

Lemma contactHashes_fingerprints (keys : list string) :
  mapM (λ contactId,
          match jidDecode contactId with
          | Some d =>
              Some (contactId,
                    String.substring 0 3
                      (md5Base64 (DecodedJid.user d +:+ "WA_ADD_NOTIF")))
          | None => None
          end) keys
  = mapM (λ contactId, pair contactId <$> fingerprintOf jidDecode md5Base64 contactId) keys.
Proof.
  induction keys as [|k keys IH]; [done|]. cbn [mapM]. rewrite IH.
  unfold fingerprintOf. by destruct (jidDecode k).
Qed.

(** The search through the pairs stops at the first id whose fingerprint
    is the one asked for. *)
Lemma contactHashes_first (id : string) (before after : list string) (k : string) :
  (∀ k', k' ∈ before ++ k :: after → is_Some (jidDecode k')) →
  (∀ k', k' ∈ before → fingerprintOf jidDecode md5Base64 k' ≠ Some id) →
  fingerprintOf jidDecode md5Base64 k = Some id →
  ∃ hashes,
    mapM (λ contactId, pair contactId <$> fingerprintOf jidDecode md5Base64 contactId)
      (before ++ k :: after) = Some hashes
    ∧ List.find (λ '(_, b), bool_decide (b = id)) hashes = Some (k, id).
Proof.
  intros Hdecode Hbefore Hk.
  assert (∀ l, (∀ k', k' ∈ l → is_Some (jidDecode k')) →
               is_Some (mapM (λ contactId,
                                pair contactId <$> fingerprintOf jidDecode md5Base64 contactId)
                          l)) as Hall.
  { intros l Hl. apply mapM_is_Some_2, Forall_forall. intros k' Hk'. cbn.
    unfold fingerprintOf. by destruct (Hl k' Hk') as [d ->]. }
  induction before as [|k0 before IH]; cbn [app mapM].
  - rewrite Hk. cbn.
    destruct (Hall after) as [hashes ->].
    { intros k' Hk'. apply Hdecode. by right. }
    cbn. eexists. split; [done|]. cbn [List.find]. by rewrite bool_decide_eq_true_2.
  - destruct IH as (hashes & -> & Hfind).
    { intros k' Hk'. apply Hdecode. by right. }
    { intros k' Hk'. apply Hbefore. by right. }
    destruct (fingerprintOf jidDecode md5Base64 k0) as [h|] eqn:Hh.
    + cbn. eexists. split; [done|]. cbn [List.find].
      rewrite bool_decide_eq_false_2; [done|].
      intros ->. apply (Hbefore k0); [by left|done].
    + exfalso. destruct (Hdecode k0) as [d Hd]; [by left|].
      unfold fingerprintOf in Hh. by rewrite Hd in Hh.
Qed.

End Fingerprints.

(** X18: when an update names no stored id, contacts.update takes the
    first contact, in the order of insertion, whose fingerprint is the id
    of the update, provided every stored id decodes. *)
Theorem contactsUpdate_first_fingerprint (jidDecode : string → option DecodedJid.t)
    (md5Base64 : string → string) (update : Contact.t)
    (cs : list (string * Contact.t)) (before after : list string) (k : string) :
  JsObject.get (Contact.id update) cs = None →
  JsObject.keys cs = before ++ k :: after →
  (∀ k', k' ∈ JsObject.keys cs → is_Some (jidDecode k')) →
  (∀ k', k' ∈ before → fingerprintOf jidDecode md5Base64 k' ≠ Some (Contact.id update)) →
  fingerprintOf jidDecode md5Base64 k = Some (Contact.id update) →
  ∃ contact,
    JsObject.get k cs = Some contact
    ∧ findContact jidDecode md5Base64 update cs = Some (Some (k, contact)).
Proof.
  intros Hdirect Hkeys Hdecode Hbefore Hk.
  destruct (JsObject.get k cs) as [contact|] eqn:Hget.
  2:{ apply JsObject_get_None in Hget. exfalso. apply Hget. rewrite Hkeys.
      apply elem_of_app. right. by left. }
  exists contact. split; [done|].
  unfold findContact, contactHashes. rewrite Hdirect, contactHashes_fingerprints, Hkeys.
  destruct (contactHashes_first jidDecode md5Base64 (Contact.id update) before after k)
    as (hashes & -> & ->); [by rewrite <- Hkeys|done|done|].
  cbn. by rewrite Hget.
Qed.

Lemma contactsUpdate_first_fingerprint_witness :
  ∃ contact,
    JsObject.get "1234567890@s.whatsapp.net" knownContacts = Some contact
    ∧ findContact sampleJidDecode sampleMd5Base64 (renameUpdate "q2F") knownContacts
      = Some (Some ("1234567890@s.whatsapp.net"%string, contact)).
Proof.
  apply (contactsUpdate_first_fingerprint sampleJidDecode sampleMd5Base64
           (renameUpdate "q2F") knownContacts [] [] "1234567890@s.whatsapp.net").
  - reflexivity.
  - reflexivity.
  - intros k' Hk'. apply list_elem_of_singleton in Hk' as ->. by eexists.
  - intros k' Hk'. by apply elem_of_nil in Hk'.
  - reflexivity.
Defined.

(** X19: when an update names no stored id and one of the stored ids does
    not decode, the computation of the fingerprints throws: the handler
    ends there, nothing is written and the rest of the batch is not looked
    at. *)
Theorem contactsUpdate_undecodable_throws (jidDecode : string → option DecodedJid.t)
    (md5Base64 : string → string) (config : Config.t)
    (update : Contact.t) (rest : list Contact.t) (cs : list (string * Contact.t))
    (k : string) :
  JsObject.get (Contact.id update) cs = None →
  k ∈ JsObject.keys cs →
  jidDecode k = None →
  contactsUpdateLoop jidDecode md5Base64 config (update :: rest) cs = (Throw, cs).
Proof.
  intros Hdirect Hk Hnone. cbn [contactsUpdateLoop].
  unfold contactsUpdateOne, findContact. rewrite Hdirect.
  assert (contactHashes jidDecode md5Base64 cs = None) as ->; [|done].
  apply mapM_None_2, Exists_exists. exists k. split; [done|]. by rewrite Hnone.
Qed.

Lemma contactsUpdate_undecodable_throws_witness :
  contactsUpdateLoop sampleJidDecode sampleMd5Base64 defaultConfig
    [renameUpdate "q2F"; imgUrlUpdate "status" "removed"] undecodableContacts
  = (Throw, undecodableContacts).
Proof.
  apply (contactsUpdate_undecodable_throws sampleJidDecode sampleMd5Base64 defaultConfig
           (renameUpdate "q2F") [imgUrlUpdate "status" "removed"] undecodableContacts
           "status").
  - reflexivity.
  - by left.
  - reflexivity.
Defined.

(** ** chats.upsert *)

Section KeyedDB_upsert_batch.
Context {T : Type} (cmp : Comparable T) (idGetter : T → string).

(** After an upsert an id gives the last item of the batch that has it,
    and what it gave before when the batch has none. *)
Lemma KeyedDB_get_upsert (values db : list T) (id : string) :
  KeyedDB.get idGetter id (KeyedDB.upsert cmp idGetter values db)
  = match List.find (KeyedDB.hasId idGetter id) (rev values) with
    | Some v => Some v
    | None => KeyedDB.get idGetter id db
    end.
Proof.
  induction values as [|v values IH] using rev_ind; [done|].
  unfold KeyedDB.upsert in *. rewrite foldl_app, rev_app_distr. cbn [foldl rev app List.find].
  unfold KeyedDB.hasId at 1. destruct (decide (idGetter v = id)) as [<-|Hne].
  - rewrite bool_decide_eq_true_2 by done.
    apply KeyedDB_get_insertSorted_eq, KeyedDB_get_deleteById_eq.
  - rewrite bool_decide_eq_false_2 by done.
    rewrite KeyedDB_get_insertSorted_ne, KeyedDB_get_deleteById_ne by done. exact IH.
Qed.

Lemma find_rev_last (id : string) (before after : list T) (v : T) :
  idGetter v = id → id ∉ idGetter <$> after →
  List.find (KeyedDB.hasId idGetter id) (rev (before ++ v :: after)) = Some v.
Proof.
  intros Hv Hafter. rewrite rev_app_distr. cbn [rev]. rewrite <- app_assoc.
  induction after as [|w after IH] using rev_ind.
  - cbn. by rewrite <- Hv, KeyedDB_hasId_true.
  - rewrite rev_app_distr. cbn [rev app List.find].
    rewrite fmap_app in Hafter. apply not_elem_of_app in Hafter as [Hafter Hw].
    rewrite KeyedDB_hasId_false; [by apply IH|].
    intros Heq. apply Hw. rewrite <- Heq. cbn. by left.
Qed.

Lemma find_rev_none (id : string) (values : list T) :
  id ∉ idGetter <$> values → List.find (KeyedDB.hasId idGetter id) (rev values) = None.
Proof.
  intros Hnotin. apply (KeyedDB_get_None idGetter).
  intros (v & -> & Hv)%list_elem_of_fmap. apply Hnotin, list_elem_of_fmap_2.
  by apply list_elem_of_In, in_rev, list_elem_of_In.
Qed.

End KeyedDB_upsert_batch.

(** X20: chats.upsert replaces whole chats: the last chat of the batch for
    an id is what the id gives afterwards, with no field of the chat stored
    before; the chats of the ids that the batch does not name are
    untouched; and the same event applied twice leaves every id with what
    it has after once. *)
Theorem chatsUpsert_replaces (localeCompare : string → string → comparison)
    (config : Config.t) (newChats : list Chat.t) (s : Store) :
  (∀ before chat after,
     newChats = before ++ chat :: after →
     Chat.id chat ∉ Chat.id <$> after →
     KeyedDB.get Chat.id (Chat.id chat) (chats (onChatsUpsert localeCompare config newChats s))
     = Some chat)
  ∧ (∀ i, i ∉ Chat.id <$> newChats →
          KeyedDB.get Chat.id i (chats (onChatsUpsert localeCompare config newChats s))
          = KeyedDB.get Chat.id i (chats s))
  ∧ (∀ i, KeyedDB.get Chat.id i
            (chats (onChatsUpsert localeCompare config newChats (onChatsUpsert localeCompare config newChats s)))
          = KeyedDB.get Chat.id i (chats (onChatsUpsert localeCompare config newChats s))).
Proof.
  cbn [onChatsUpsert chats setChats]. split; [|split].
  - intros before chat after -> Hlast.
    by rewrite KeyedDB_get_upsert, (find_rev_last Chat.id (Chat.id chat)).
  - intros i Hnotin. by rewrite KeyedDB_get_upsert, find_rev_none.
  - intros i. rewrite !KeyedDB_get_upsert. by destruct (List.find _ _).
Qed.

Lemma chatsUpsert_replaces_witness :
  KeyedDB.get Chat.id "A@s.whatsapp.net"
    (chats (onChatsUpsert sampleLocaleCompare defaultConfig [bareChat "A@s.whatsapp.net" (Some 9%Z)]
              (setChats [unreadChat "A@s.whatsapp.net" (Some 2%Z)] initialStore)))
  = Some (bareChat "A@s.whatsapp.net" (Some 9%Z)).
Proof.
  apply (proj1 (chatsUpsert_replaces sampleLocaleCompare defaultConfig [bareChat "A@s.whatsapp.net" (Some 9%Z)]
                  (setChats [unreadChat "A@s.whatsapp.net" (Some 2%Z)] initialStore))
           [] (bareChat "A@s.whatsapp.net" (Some 9%Z)) []).
  - reflexivity.
  - apply not_elem_of_nil.
Defined.

(** ** Where a message goes in its list *)

Lemma upsertMessage_ids (jid : string) (msg : WAMessage.t) (mode : Direction)
    (msgs : gmap string (list WAMessage.t)) :
  messageIds jid (upsertMessage jid msg mode msgs)
  = if decide (waMessageID msg ∈ messageIds jid msgs)
    then messageIds jid msgs
    else match mode with
         | Append => messageIds jid msgs ++ [waMessageID msg]
         | Prepend => waMessageID msg :: messageIds jid msgs
         end.
Proof.
  unfold messageIds. rewrite upsertMessage_lookup, decide_True by done.
  cbn [from_option id]. generalize (default [] (msgs !! jid)) as l. intros l.
  unfold OrderedDictionary.upsert.
  destruct (OrderedDictionary.get waMessageID (waMessageID msg) l) eqn:Hget.
  - rewrite OrderedDictionary_ids_replace. rewrite decide_True; [done|].
    destruct (decide (waMessageID msg ∈ waMessageID <$> l)) as [|Hnotin]; [done|].
    apply (KeyedDB_get_None waMessageID) in Hnotin.
    unfold KeyedDB.get, KeyedDB.hasId in Hnotin. unfold OrderedDictionary.get in Hget.
    congruence.
  - apply (KeyedDB_get_None waMessageID) in Hget. rewrite decide_False by done.
    destruct mode; [by rewrite fmap_app|done].
Qed.

(** X21: a message whose id its list knows keeps its position, whichever
    event delivers it; a message with a new id goes to the front of the
    list of its remoteJid when messaging-history.set delivers it, and to
    the back of the list of the decoded key when messages.upsert does. *)
Theorem message_positions (localeCompare : string → string → comparison)
    (jidDecode : string → option DecodedJid.t) (config : Config.t)
    (msg : WAMessage.t) (s : Store) :
  let remoteJid := MessageKey.remoteJid (WAMessage.key msg) in
  let jid := objectToString (jidDecode remoteJid) in
  messageIds remoteJid
    (messages (onMessagingHistorySet localeCompare config [] [] [msg] false s))
  = (if decide (waMessageID msg ∈ messageIds remoteJid (messages s))
     then messageIds remoteJid (messages s)
     else waMessageID msg :: messageIds remoteJid (messages s))
  ∧ (∀ type, type = "append"%string ∨ type = "notify"%string →
       messageIds jid (messages (onMessagesUpsert localeCompare jidDecode config [msg] type s))
       = if decide (waMessageID msg ∈ messageIds jid (messages s))
         then messageIds jid (messages s)
         else messageIds jid (messages s) ++ [waMessageID msg]).
Proof.
  cbn zeta. split.
  - unfold onMessagingHistorySet.
    cbn [messages setChats setContacts setMessages foldl]. unfold prependMessage.
    apply upsertMessage_ids.
  - intros type Htype. unfold onMessagesUpsert.
    assert (bool_decide (type = "append"%string) || bool_decide (type = "notify"%string)
            = true) as ->.
    { destruct Htype as [-> | ->]; [done|]. apply orb_true_r. }
    cbn [foldl]. rewrite messagesUpsertOne_messages. apply upsertMessage_ids.
Qed.

Lemma message_positions_witness :
  messageIds "[object Object]"
    (messages (onMessagesUpsert sampleLocaleCompare sampleJidDecode defaultConfig
                 [sampleMessage "A@s.whatsapp.net" "m9" "nine"] "append"
                 (onMessagesUpsert sampleLocaleCompare sampleJidDecode defaultConfig
                    [sampleMessage "A@s.whatsapp.net" "m1" "one"] "append" storeAB)))
  = ["m1"; "m9"]%string.
Proof.
  etrans;
    [exact (proj2 (message_positions sampleLocaleCompare sampleJidDecode defaultConfig
                     (sampleMessage "A@s.whatsapp.net" "m9" "nine")
                     (onMessagesUpsert sampleLocaleCompare sampleJidDecode defaultConfig
                        [sampleMessage "A@s.whatsapp.net" "m1" "one"] "append" storeAB))
              "append"%string (or_introl eq_refl))
    |reflexivity].
Defined.

(** ** messaging-history.set with [isLatest] *)

Lemma spreadContact_fields (old : option Contact.t) (contact : Contact.t) (f : string) :
  Contact.id (spreadContact old contact) = Contact.id contact
  ∧ Contact.fields (spreadContact old contact) !! f
    = match Contact.fields contact !! f with
      | Some v => Some v
      | None => old ≫= λ o, Contact.fields o !! f
      end.
Proof.
  destruct old as [o|]; cbn.
  - split; [done|]. unfold assign. rewrite lookup_union.
    by destruct (Contact.fields contact !! f), (Contact.fields o !! f).
  - split; [done|]. by destruct (Contact.fields contact !! f).
Qed.

(** The last contact of an id in the batch is spread over what the loop of
    [contactsUpsert] had under the id when it came to it. *)
Lemma contactsUpsert_fold_last (before rest : list Contact.t) (contact : Contact.t)
    (acc : list (string * Contact.t) * list string) :
  Contact.id contact ∉ Contact.id <$> rest →
  JsObject.get (Contact.id contact)
    (foldl contactsUpsertOne acc (before ++ contact :: rest)).1
  = Some (spreadContact
            (JsObject.get (Contact.id contact) (foldl contactsUpsertOne acc before).1)
            contact).
Proof.
  intros Hrest. rewrite foldl_app. cbn [foldl].
  destruct (contactsUpsert_fold rest
              (contactsUpsertOne (foldl contactsUpsertOne acc before) contact))
    as (_ & Hother & _).
  rewrite Hother by done. cbn [contactsUpsertOne fst].
  by rewrite JsObject_get_set, decide_True.
Qed.

Section OrderedDictionary_order.
Context {T : Type} (idGetter : T → string).

Lemma OrderedDictionary_get_new (id : string) (d : list T) :
  id ∉ idGetter <$> d → OrderedDictionary.get idGetter id d = None.
Proof.
  unfold OrderedDictionary.get.
  induction d as [|x d IH]; [done|]. cbn [fmap list_fmap List.find].
  intros Hnotin. apply not_elem_of_cons in Hnotin as [Hne Hnotin].
  rewrite bool_decide_eq_false_2 by done. by apply IH.
Qed.

(** An upsert of another id leaves an item as it is. *)
Lemma OrderedDictionary_upsert_keeps_item (item x : T) (mode : Direction) (d : list T) :
  x ∈ d → idGetter x ≠ idGetter item →
  x ∈ OrderedDictionary.upsert idGetter item mode d.
Proof.
  intros Hin Hne. unfold OrderedDictionary.upsert, OrderedDictionary.replace.
  destruct (OrderedDictionary.get idGetter (idGetter item) d).
  - apply list_elem_of_In, in_map_iff. exists x.
    split; [by rewrite bool_decide_eq_false_2|by apply list_elem_of_In].
  - destruct mode; [apply elem_of_app; by left|by right].
Qed.

End OrderedDictionary_order.

(** The ids that a list gets when ids arrive one by one at its front. *)
Lemma prepend_ids_remove_dups (ids : list string) :
  foldl (λ (known : list string) (x : string), if decide (x ∈ known) then known else x :: known)
        [] ids
  = remove_dups (reverse ids).
Proof.
  induction ids as [|x ids IH] using rev_ind; [done|].
  rewrite foldl_app, reverse_snoc. cbn [foldl remove_dups]. rewrite IH.
  destruct (decide (x ∈ remove_dups (reverse ids))) as [Hin|Hnotin];
    destruct (decide_rel elem_of x (reverse ids)) as [Hin'|Hnotin']; try done.
  - exfalso. by apply Hnotin', elem_of_remove_dups.
  - exfalso. by apply Hnotin, elem_of_remove_dups.
Qed.

Lemma prependMessage_other (jid : string) (msg : WAMessage.t)
    (msgs : gmap string (list WAMessage.t)) :
  MessageKey.remoteJid (WAMessage.key msg) ≠ jid →
  prependMessage msgs msg !! jid = msgs !! jid.
Proof.
  intros Hne. unfold prependMessage. by rewrite upsertMessage_lookup, decide_False.
Qed.

Lemma prependMessage_ids (batch : list WAMessage.t) (jid : string)
    (msgs : gmap string (list WAMessage.t)) :
  messageIds jid (foldl prependMessage msgs batch)
  = foldl (λ (known : list string) (x : string), if decide (x ∈ known) then known else x :: known)
          (messageIds jid msgs) (waMessageID <$> messagesOf jid batch).
Proof.
  revert msgs. induction batch as [|msg batch IH]; intros msgs; [done|].
  cbn [foldl]. rewrite IH. unfold messagesOf. rewrite filter_cons.
  destruct (decide (MessageKey.remoteJid (WAMessage.key msg) = jid)) as [<-|Hne].
  - rewrite fmap_cons. cbn [foldl]. unfold prependMessage.
    by rewrite upsertMessage_ids.
  - unfold messageIds at 1. by rewrite prependMessage_other.
Qed.

(** Messages with new and distinct ids end up in front of the list, the
    last of the batch first. *)
Lemma prependMessage_fresh (batch : list WAMessage.t) (jid : string)
    (msgs : gmap string (list WAMessage.t)) :
  NoDup (waMessageID <$> messagesOf jid batch) →
  (∀ x, x ∈ waMessageID <$> messagesOf jid batch → x ∉ messageIds jid msgs) →
  default [] (foldl prependMessage msgs batch !! jid)
  = reverse (messagesOf jid batch) ++ default [] (msgs !! jid).
Proof.
  revert msgs. unfold messagesOf.
  induction batch as [|msg batch IH]; intros msgs Hnodup Hnew; [done|].
  cbn [foldl]. rewrite filter_cons in Hnodup, Hnew |- *.
  destruct (decide (MessageKey.remoteJid (WAMessage.key msg) = jid)) as [Hjid|Hne].
  - rewrite fmap_cons in Hnodup, Hnew. apply NoDup_cons in Hnodup as [Hhead Hnodup].
    assert (waMessageID msg ∉ messageIds jid msgs) as Hfresh by (apply Hnew; by left).
    rewrite IH; [|done|].
    + rewrite reverse_cons, <- app_assoc. f_equal. cbn [app].
      unfold prependMessage. rewrite Hjid, upsertMessage_lookup, decide_True by done.
      cbn [from_option id]. unfold OrderedDictionary.upsert.
      by rewrite OrderedDictionary_get_new.
    + intros x Hx. unfold prependMessage. rewrite Hjid, upsertMessage_ids.
      rewrite decide_False by done. apply not_elem_of_cons. split.
      * intros ->. by apply Hhead.
      * apply Hnew. by right.
  - rewrite IH; [|done|].
    + by rewrite prependMessage_other.
    + intros x Hx. unfold messageIds. rewrite prependMessage_other by done.
      by apply Hnew.
Qed.

(** A stored message stays as it is while no later message of the batch
    has its remoteJid and id. *)
Lemma prependMessage_keeps_item (rest : list WAMessage.t) (m : WAMessage.t)
    (msgs : gmap string (list WAMessage.t)) (l : list WAMessage.t) :
  msgs !! MessageKey.remoteJid (WAMessage.key m) = Some l → m ∈ l →
  (∀ m', m' ∈ rest →
         MessageKey.remoteJid (WAMessage.key m') = MessageKey.remoteJid (WAMessage.key m) →
         waMessageID m' ≠ waMessageID m) →
  ∃ l', foldl prependMessage msgs rest !! MessageKey.remoteJid (WAMessage.key m) = Some l'
        ∧ m ∈ l'.
Proof.
  revert msgs l. induction rest as [|m0 rest IH]; intros msgs l Hl Hin Hlater.
  - by exists l.
  - cbn [foldl].
    destruct (decide (MessageKey.remoteJid (WAMessage.key m0)
                      = MessageKey.remoteJid (WAMessage.key m))) as [Heq|Hne].
    + eapply IH; [| |intros m' Hm'; apply Hlater; by right].
      * unfold prependMessage. rewrite upsertMessage_lookup, decide_True by done.
        rewrite Heq, Hl. done.
      * cbn [from_option id]. apply OrderedDictionary_upsert_keeps_item; [done|].
        intros Hid. apply (Hlater m0); [by left|done|done].
    + eapply IH; [|exact Hin|intros m' Hm'; apply Hlater; by right].
      by rewrite prependMessage_other.
Qed.

Section insertIfAbsent_first.
Context {T : Type} (cmp : Comparable T) (idGetter : T → string).

Lemma insertIfAbsent_other (values : list T) (acc : list T * list T) (id : string) :
  id ∉ idGetter <$> values →
  KeyedDB.get idGetter id (foldl (KeyedDB.insertOneIfAbsent cmp idGetter) acc values).2
  = KeyedDB.get idGetter id acc.2.
Proof.
  revert acc. induction values as [|v values IH]; intros acc Hnotin; [done|].
  rewrite fmap_cons in Hnotin. apply not_elem_of_cons in Hnotin as [Hne Hnotin].
  cbn [foldl]. rewrite IH by done. unfold KeyedDB.insertOneIfAbsent.
  destruct (KeyedDB.get idGetter (idGetter v) acc.2); [done|]. cbn [snd].
  by rewrite KeyedDB_get_insertSorted_ne.
Qed.

(** Of the items of one id in the batch, [insertIfAbsent] on the empty
    collection keeps the first. *)
Lemma insertIfAbsent_first (before rest : list T) (v : T) :
  idGetter v ∉ idGetter <$> before →
  KeyedDB.get idGetter (idGetter v)
    (KeyedDB.insertIfAbsent cmp idGetter (before ++ v :: rest) []).2
  = Some v.
Proof.
  intros Hbefore. unfold KeyedDB.insertIfAbsent. rewrite foldl_app. cbn [foldl].
  apply insertIfAbsent_keeps_item. unfold KeyedDB.insertOneIfAbsent at 1.
  pose proof (insertIfAbsent_other before ([], []) (idGetter v) Hbefore) as Hnone.
  cbn [snd] in Hnone. change (KeyedDB.get idGetter (idGetter v) []) with (@None T) in Hnone.
  rewrite Hnone. cbn [snd]. by apply KeyedDB_get_insertSorted_eq.
Qed.

End insertIfAbsent_first.

(** C1: a messaging-history.set with [isLatest = true] leaves chats and
    message lists that are the same whatever the store held before.
    Chats: those of the batch, one per id of the batch, of several chats
    of one id the first.  Messages: every stored message is a message of
    the batch, under its own [remoteJid]; the ids of a list are the ids of
    the batch for that [remoteJid] in reverse order, an id that comes again
    keeping its place; with distinct ids the list is the batch's messages
    for the [remoteJid] in reverse order; a message that no later message
    of the batch replaces is stored as it is.  Contacts: the ids are
    exactly those of the batch; a contact named once in the batch has,
    field by field, the value of the batch where the batch names the field
    and else the value known before under its id; a contact known before
    and named in the batch loses no field, and the fields of the last
    entry of an id in the batch are stored. *)
Theorem historySet_latest_resets (localeCompare : string → string → comparison)
    (config : Config.t) (newChats : list Chat.t) (newContacts : list Contact.t)
    (newMessages : list WAMessage.t) (s s0 : Store) :
  let after :=
    onMessagingHistorySet localeCompare config newChats newContacts newMessages true in
  (chats (after s) = chats (after s0) ∧ messages (after s) = messages (after s0))
  ∧ (∀ c, c ∈ chats (after s) → c ∈ newChats)
  ∧ (∀ i, is_Some (KeyedDB.get Chat.id i (chats (after s))) ↔ i ∈ Chat.id <$> newChats)
  ∧ (∀ before chat rest,
       newChats = before ++ chat :: rest →
       Chat.id chat ∉ Chat.id <$> before →
       KeyedDB.get Chat.id (Chat.id chat) (chats (after s)) = Some chat)
  ∧ messagesFrom newMessages (messages (after s))
  ∧ (∀ m, m ∈ newMessages →
          knowsMessage (MessageKey.remoteJid (WAMessage.key m)) (waMessageID m)
            (messages (after s)))
  ∧ (∀ jid, messageIds jid (messages (after s))
            = remove_dups (reverse (waMessageID <$> messagesOf jid newMessages)))
  ∧ (∀ jid, NoDup (waMessageID <$> messagesOf jid newMessages) →
            default [] (messages (after s) !! jid)
            = reverse (messagesOf jid newMessages))
  ∧ (∀ before m rest,
       newMessages = before ++ m :: rest →
       (∀ m', m' ∈ rest →
              MessageKey.remoteJid (WAMessage.key m')
              = MessageKey.remoteJid (WAMessage.key m) →
              waMessageID m' ≠ waMessageID m) →
       ∃ l, messages (after s) !! MessageKey.remoteJid (WAMessage.key m) = Some l
            ∧ m ∈ l)
  ∧ (∀ k, is_Some (JsObject.get k (contacts (after s))) ↔ k ∈ Contact.id <$> newContacts)
  ∧ (NoDup (Contact.id <$> newContacts) →
     ∀ contact, contact ∈ newContacts →
       JsObject.get (Contact.id contact) (contacts (after s))
       = Some (spreadContact (JsObject.get (Contact.id contact) (contacts s)) contact))
  ∧ (∀ before contact rest,
       newContacts = before ++ contact :: rest →
       Contact.id contact ∉ Contact.id <$> before →
       Contact.id contact ∉ Contact.id <$> rest →
       ∃ c, JsObject.get (Contact.id contact) (contacts (after s)) = Some c
            ∧ Contact.id c = Contact.id contact
            ∧ ∀ f, Contact.fields c !! f
                   = match Contact.fields contact !! f with
                     | Some v => Some v
                     | None =>
                         JsObject.get (Contact.id contact) (contacts s)
                           ≫= λ old, Contact.fields old !! f
                     end)
  ∧ (∀ k old,
       JsObject.get k (contacts s) = Some old → k ∈ Contact.id <$> newContacts →
       ∃ c, JsObject.get k (contacts (after s)) = Some c ∧ keepsFields old c)
  ∧ (∀ before contact rest f v,
       newContacts = before ++ contact :: rest →
       Contact.id contact ∉ Contact.id <$> rest →
       Contact.fields contact !! f = Some v →
       ∃ c, JsObject.get (Contact.id contact) (contacts (after s)) = Some c
            ∧ Contact.fields c !! f = Some v).
Proof.
  intros after. subst after. unfold onMessagingHistorySet.
  cbn [chats messages contacts setChats setMessages setContacts KeyedDB.clear].
  rewrite !messages_deleted.
  destruct (contactsUpsert_fold newContacts (contacts s, JsObject.keys (contacts s)))
    as (Hold & Hother & Hin & Hlast).
  cbn [fst snd] in Hold, Hother, Hin, Hlast. fold (contactsUpsert newContacts (contacts s)) in *.
  assert (∀ k, k ∈ Contact.id <$> newContacts →
               JsObject.get k
                 (foldl (λ cs jid, JsObject.delete jid cs)
                    (contactsUpsert newContacts (contacts s)).1
                    (contactsUpsert newContacts (contacts s)).2)
               = JsObject.get k (contactsUpsert newContacts (contacts s)).1) as Hkept.
  { intros k Hk. rewrite JsObject_get_foldl_delete, decide_False; [done|].
    rewrite Hold. by intros [_ ?]. }
  split; [done|].
  split; [|split; [|split; [|split; [|split; [|split; [|split; [|split;
    [|split; [|split; [|split; [|split]]]]]]]]]]].
  - intros c Hc. apply KeyedDB_elem_of_insertIfAbsent in Hc as [Hc|Hc]; [done|].
    by apply elem_of_nil in Hc.
  - intros i. split.
    + intros [c Hc]. apply KeyedDB_get_Some in Hc as [Hc <-].
      apply KeyedDB_elem_of_insertIfAbsent in Hc as [Hc|Hc];
        [by apply list_elem_of_fmap_2|by apply elem_of_nil in Hc].
    + intros (c & -> & Hc)%list_elem_of_fmap. by apply insertIfAbsent_holds.
  - intros before chat rest -> Hbefore. by apply insertIfAbsent_first.
  - apply prependMessage_from; [done|]. intros jid l m Hl. by rewrite lookup_empty in Hl.
  - intros m Hm. by apply prependMessage_holds.
  - intros jid. rewrite prependMessage_ids. unfold messageIds at 1.
    rewrite lookup_empty. cbn [from_option id fmap list_fmap].
    apply prepend_ids_remove_dups.
  - intros jid Hnodup. rewrite prependMessage_fresh; [|done|].
    + rewrite lookup_empty. cbn [from_option id]. apply app_nil_r.
    + intros x _. unfold messageIds. rewrite lookup_empty. apply not_elem_of_nil.
  - intros before m rest -> Hlater. rewrite foldl_app. cbn [foldl].
    eapply prependMessage_keeps_item; [|apply OrderedDictionary_upsert_holds|done].
    unfold prependMessage. by rewrite upsertMessage_lookup, decide_True.
  - intros k. rewrite JsObject_get_foldl_delete.
    destruct (decide (k ∈ Contact.id <$> newContacts)) as [Hk|Hk].
    + rewrite decide_False; [split; [done|intros _; by apply Hin]|].
      rewrite Hold. by intros [_ ?].
    + split; [|done]. intros Hsome. exfalso.
      destruct (decide _) as [_|Hnotin]; [by destruct Hsome|].
      rewrite Hother in Hsome by done.
      apply Hnotin, Hold. split; [|done].
      destruct (decide (k ∈ JsObject.keys (contacts s))) as [|Hkeys]; [done|].
      apply JsObject_get_None in Hkeys. rewrite Hkeys in Hsome. by destruct Hsome.
  - intros Hnodup contact Hmem. rewrite Hkept by (by apply list_elem_of_fmap_2).
    by apply Hlast.
  - intros before contact rest Hbatch Hbefore Hrest.
    rewrite Hkept.
    2:{ rewrite Hbatch, fmap_app, fmap_cons. apply elem_of_app. right. by left. }
    unfold contactsUpsert. rewrite Hbatch, contactsUpsert_fold_last by done.
    destruct (contactsUpsert_fold before (contacts s, JsObject.keys (contacts s)))
      as (_ & Hsame & _).
    rewrite Hsame by done. cbn [fst].
    eexists. split; [done|]. split; [apply spreadContact_fields; exact ""%string|].
    intros f. apply spreadContact_fields.
  - intros k old Hknown Hk. rewrite Hkept by done.
    by apply (contactsUpsert_fold_keeps newContacts (contacts s, JsObject.keys (contacts s))).
  - intros before contact rest f v Hbatch Hrest Hv.
    rewrite Hkept.
    2:{ rewrite Hbatch, fmap_app, fmap_cons. apply elem_of_app. right. by left. }
    unfold contactsUpsert. rewrite Hbatch, contactsUpsert_fold_last by done.
    eexists. split; [done|]. by apply spreadContact_wins.
Qed.

(** The example of the specification, chats A and B and messages in A and
    then a latest history with the single chat C, here with two messages
    of C in the batch: they are stored last first. *)
Lemma historySet_latest_resets_witness :
  Chat.id <$> chats (onMessagingHistorySet sampleLocaleCompare defaultConfig
                       [bareChat "C@s.whatsapp.net" None] []
                       [sampleMessage "C@s.whatsapp.net" "m0" "zero";
                        sampleMessage "C@s.whatsapp.net" "m3" "three"] true storeAB)
  = ["C@s.whatsapp.net"%string]
  ∧ default []
      (messages (onMessagingHistorySet sampleLocaleCompare defaultConfig
                   [bareChat "C@s.whatsapp.net" None] []
                   [sampleMessage "C@s.whatsapp.net" "m0" "zero";
                    sampleMessage "C@s.whatsapp.net" "m3" "three"] true storeAB)
       !! "C@s.whatsapp.net"%string)
    = [sampleMessage "C@s.whatsapp.net" "m3" "three";
       sampleMessage "C@s.whatsapp.net" "m0" "zero"].
Proof.
  split; [reflexivity|].
  destruct (historySet_latest_resets sampleLocaleCompare defaultConfig
              [bareChat "C@s.whatsapp.net" None] []
              [sampleMessage "C@s.whatsapp.net" "m0" "zero";
               sampleMessage "C@s.whatsapp.net" "m3" "three"] storeAB initialStore)
    as (_ & _ & _ & _ & _ & _ & _ & Hreverse & _).
  etrans; [apply Hreverse|reflexivity].
  apply (bool_decide_unpack _). reflexivity.
Defined.
